(** * Session registry and broadcast relay of the tango backend

    A shallow embedding of [backend/main.go] and [backend/utils.go]:
    the in-memory store of sessions and clients, the HTTP handlers that
    create, list, show and delete sessions, the WebSocket handler that
    admits a client, and the per-connection goroutine that relays
    messages and cleans up on disconnect; and of the handler of incoming
    messages of [frontend/src/App.tsx].

    Go pointers are explicit: a [*Session] is an index into [heap], a
    [*websocket.Conn] an index into [conns].  A [*Client] is never
    mutated after it is built, so it is embedded as a value.  What
    [math/rand] returns and what the clients send are inputs of the
    handlers.  Every handler body below is the code of one handler run
    without interleaving; [handleWebSocket_serve] is the part of
    handleWebSocket after the store's lock was released once. *)

From stdpp Require Import gmap strings list fin_maps.
From Stdlib Require Import ZArith.

#[local] Set Warnings "-clear-no-such-hyp".

(** ** Data model (main.go, type declarations) *)

Record Message := mkMessage {
  Type_ : string;
  Payload : gmap string string
}.

Module Client.
Record t := mk {
  ID : string;
  Name : string;
  Conn : option nat;
  SessionID : string
}.
End Client.

Module Session.
Record t := mk {
  ID : string;
  Name : string;
  CreatedAt : Z;
  Clients : gmap string Client.t
}.
End Session.

Module InMemoryStore.
Record t := mk {
  Sessions : gmap string nat;
  Clients : gmap string Client.t
}.
End InMemoryStore.

Definition NewInMemoryStore : InMemoryStore.t :=
  {| InMemoryStore.Sessions := ∅; InMemoryStore.Clients := ∅ |}.

(** The state of one [*websocket.Conn] as the server sees it: whether
    [Close] was called on it, and the messages [WriteJSON] wrote to it
    while it was open, oldest first. *)
Record WsConn := mkWsConn {
  closed : bool;
  written : list Message
}.

(** The process: the global [store], the [*Session] objects, the
    connections, and the goroutines started by [go handleMessages(client,
    session)] ([None] once the goroutine has returned). *)
Record World := mkWorld {
  store : InMemoryStore.t;
  heap : list Session.t;
  conns : list WsConn;
  goroutines : list (option (Client.t * nat))
}.

Definition NewWorld : World :=
  {| store := NewInMemoryStore; heap := []; conns := []; goroutines := [] |}.

Global Instance Message_eq_dec : EqDecision Message.
Proof. solve_decision. Defined.
Global Instance Client_eq_dec : EqDecision Client.t.
Proof. solve_decision. Defined.
Global Instance Session_eq_dec : EqDecision Session.t.
Proof. solve_decision. Defined.
Global Instance WsConn_eq_dec : EqDecision WsConn.
Proof. solve_decision. Defined.

(** ** utils.go *)

Definition charset : string :=
  "abcdefghijklmnopqrstuvwxyzABCDEFGHIJKLMNOPQRSTUVWXYZ0123456789".

Definition charset_at (i : nat) : string :=
  match String.get i charset with
  | Some c => String c EmptyString
  | None => EmptyString
  end.

(** [rand i] is what the [i]-th call of [rand.Intn(len(charset))] in
    this invocation returns before reduction to the range of [Intn]. *)
Fixpoint randomString_from (i length : nat) (rand : nat → nat) : string :=
  match length with
  | 0 => EmptyString
  | S n => charset_at (rand i mod String.length charset)
             +:+ randomString_from (S i) n rand
  end.

Definition randomString (length : nat) (rand : nat → nat) : string :=
  randomString_from 0 length rand.

Definition generateID (rand : nat → nat) : string :=
  "id_" +:+ randomString 8 rand.

(** ** gorilla/websocket, as far as the handlers use it *)

Definition shut (c : WsConn) : WsConn :=
  {| closed := true; written := written c |}.

Definition Close (k : nat) (cs : list WsConn) : list WsConn :=
  alter shut k cs.

(** [WriteJSON] on a closed connection returns an error and writes
    nothing; [sendMessage] only logs that error. *)
Definition deliver (message : Message) (c : WsConn) : WsConn :=
  if closed c then c
  else {| closed := false; written := written c ++ [message] |}.

Definition WriteJSON (k : nat) (message : Message) (cs : list WsConn) : list WsConn :=
  alter (deliver message) k cs.

Definition sendMessage (conn : option nat) (message : Message)
    (cs : list WsConn) : list WsConn :=
  match conn with
  | Some k => WriteJSON k message cs
  | None => cs
  end.

(** ** The four events *)

Definition session_joined (sessionID clientID : string) : Message :=
  {| Type_ := "session_joined";
     Payload := <["sessionId" := sessionID]> (<["clientId" := clientID]> ∅) |}.

Definition client_joined (clientID : string) : Message :=
  {| Type_ := "client_joined"; Payload := <["clientId" := clientID]> ∅ |}.

Definition client_left (clientID : string) : Message :=
  {| Type_ := "client_left"; Payload := <["clientId" := clientID]> ∅ |}.

Definition screen_data (clientID data : string) : Message :=
  {| Type_ := "screen_data";
     Payload := <["clientId" := clientID]> (<["data" := data]> ∅) |}.

(** ** broadcastToSession *)

(** The body of [for id, client := range session.Clients].  Go ranges
    over a map in an unspecified order; every iteration sends the same
    message, so the order does not show in the result. *)
Definition broadcast_loop (message : Message) (excludeClientID : string)
    (members : list (string * Client.t)) (cs : list WsConn) : list WsConn :=
  foldr (λ '(id, client) acc,
           if decide (id ≠ excludeClientID)
           then sendMessage (Client.Conn client) message acc
           else acc)
        cs members.

Definition set_conns (w : World) (cs : list WsConn) : World :=
  {| store := store w; heap := heap w; conns := cs; goroutines := goroutines w |}.

Definition broadcastToSession (sessionID : string) (message : Message)
    (excludeClientID : string) (w : World) : World :=
  match InMemoryStore.Sessions (store w) !! sessionID with
  | None => w
  | Some p =>
      match heap w !! p with
      | None => w
      | Some session =>
          set_conns w (broadcast_loop message excludeClientID
                         (map_to_list (Session.Clients session)) (conns w))
      end
  end.

(** ** HTTP handlers *)

Inductive Body :=
  | BodyNone
  | BodyError (msg : string)
  | BodySession (s : Session.t).

Record Response := mkResponse { status : nat; body : Body }.

Definition StatusCreated := 201.
Definition StatusNoContent := 204.
Definition StatusBadRequest := 400.
Definition StatusNotFound := 404.

(** [c.ShouldBindJSON(&req)] with [binding:"required"] on [Name]: a body
    without a name, or with the empty name, is an error. *)
Definition ShouldBindJSON (req : option string) : string + string :=
  match req with
  | None => inl "Key: 'Name' Error:Field validation for 'Name' failed on the 'required' tag"
  | Some name =>
      if decide (name = EmptyString)
      then inl "Key: 'Name' Error:Field validation for 'Name' failed on the 'required' tag"
      else inr name
  end.

Definition createSession (req : option string) (rand : nat → nat) (now : Z)
    (w : World) : World * Response :=
  match ShouldBindJSON req with
  | inl err => (w, {| status := StatusBadRequest; body := BodyError err |})
  | inr name =>
      let id := generateID rand in
      let session := {| Session.ID := id; Session.Name := name;
                        Session.CreatedAt := now; Session.Clients := ∅ |} in
      let p := length (heap w) in
      ({| store := {| InMemoryStore.Sessions :=
                        <[id := p]> (InMemoryStore.Sessions (store w));
                      InMemoryStore.Clients := InMemoryStore.Clients (store w) |};
          heap := heap w ++ [session];
          conns := conns w;
          goroutines := goroutines w |},
       {| status := StatusCreated; body := BodySession session |})
  end.

Definition getSession (id : string) (w : World) : Response :=
  match InMemoryStore.Sessions (store w) !! id with
  | None => {| status := StatusNotFound; body := BodyError "Session not found" |}
  | Some p =>
      match heap w !! p with
      | None => {| status := 500; body := BodyNone |}
      | Some session => {| status := 200; body := BodySession session |}
      end
  end.

Definition StatusOK := 200.

(** [gin.H{"sessions": sessions}] with its status. *)
Record SessionList := mkSessionList {
  list_status : nat;
  sessions : list Session.t
}.

(** [getSessions]: the sessions map ranged over into a slice.  The
    slice is given in the order of [map_to_list]; Go leaves the order of
    the range unspecified, and nothing below depends on it. *)
Definition getSessions (w : World) : SessionList :=
  {| list_status := StatusOK;
     sessions := omap (λ kv, heap w !! kv.2)
                      (map_to_list (InMemoryStore.Sessions (store w))) |}.

(** What [c.JSON] shows of a session: [Clients] and [mu] carry the tag
    [json:"-"]. *)
Record SessionJSON := mkSessionJSON {
  json_id : string;
  json_name : string;
  json_createdAt : Z
}.

Definition session_json (s : Session.t) : SessionJSON :=
  {| json_id := Session.ID s; json_name := Session.Name s;
     json_createdAt := Session.CreatedAt s |}.

Inductive BodyJSON :=
  | JSONNone
  | JSONError (msg : string)
  | JSONSession (s : SessionJSON).

Definition body_json (b : Body) : BodyJSON :=
  match b with
  | BodyNone => JSONNone
  | BodyError msg => JSONError msg
  | BodySession s => JSONSession (session_json s)
  end.

(** A response as the client of the API reads it. *)
Definition response_json (r : Response) : nat * BodyJSON :=
  (status r, body_json (body r)).

(** The body of [for _, client := range store.Sessions[id].Clients];
    as in [broadcast_loop], the order of the range does not show. *)
Definition delete_loop (members : list (string * Client.t))
    (acc : list WsConn * gmap string Client.t) : list WsConn * gmap string Client.t :=
  foldr (λ '(_, client) '(cs, clients),
           (match Client.Conn client with
            | Some k => Close k cs
            | None => cs
            end,
            delete (Client.ID client) clients))
        acc members.

(** A [*Session] in the sessions map always points to an object; the
    branch for a pointer outside [heap] only makes the function total
    (so in [getSession], [broadcastToSession], [relay] and [leave]). *)
Definition deleteSession (id : string) (w : World) : World * Response :=
  match InMemoryStore.Sessions (store w) !! id with
  | None => (w, {| status := StatusNotFound; body := BodyError "Session not found" |})
  | Some p =>
      match heap w !! p with
      | None => (w, {| status := 500; body := BodyNone |})
      | Some session =>
          let '(cs, clients) :=
            delete_loop (map_to_list (Session.Clients session))
                        (conns w, InMemoryStore.Clients (store w)) in
          ({| store := {| InMemoryStore.Sessions :=
                            delete id (InMemoryStore.Sessions (store w));
                          InMemoryStore.Clients := clients |};
              heap := heap w;
              conns := cs;
              goroutines := goroutines w |},
           {| status := StatusNoContent; body := BodyNone |})
      end
  end.

(** ** handleWebSocket *)

Inductive WsResult :=
  | WsNotFound (r : Response)
  | WsUpgradeFailed
  | WsJoined (client : Client.t) (session : nat).

Definition add_client (client : Client.t) (session : Session.t) : Session.t :=
  {| Session.ID := Session.ID session; Session.Name := Session.Name session;
     Session.CreatedAt := Session.CreatedAt session;
     Session.Clients := <[Client.ID client := client]> (Session.Clients session) |}.

Definition remove_client (clientID : string) (session : Session.t) : Session.t :=
  {| Session.ID := Session.ID session; Session.Name := Session.Name session;
     Session.CreatedAt := Session.CreatedAt session;
     Session.Clients := delete clientID (Session.Clients session) |}.

(** A successful [upgrader.Upgrade]: the new connection is the next free
    index of [conns]. *)
Definition Upgrade (w : World) : World * nat :=
  (set_conns w (conns w ++ [{| closed := false; written := [] |}]), length (conns w)).

(** [store.Clients[clientID] = client; session.Clients[clientID] = client]
    under the store's lock; [session] is the pointer read earlier. *)
Definition register (client : Client.t) (session : nat) (w : World) : World :=
  {| store := {| InMemoryStore.Sessions := InMemoryStore.Sessions (store w);
                 InMemoryStore.Clients :=
                   <[Client.ID client := client]> (InMemoryStore.Clients (store w)) |};
     heap := alter (add_client client) session (heap w);
     conns := conns w;
     goroutines := goroutines w |}.

(** [go handleMessages(client, session)] *)
Definition spawn (client : Client.t) (session : nat) (w : World) : World :=
  {| store := store w; heap := heap w; conns := conns w;
     goroutines := goroutines w ++ [Some (client, session)] |}.

(** handleWebSocket from [upgrader.Upgrade] on, once the upgrade has
    succeeded; [session] is the pointer that the lookup returned.  The
    store's lock is free between the lookup and this part. *)
Definition handleWebSocket_serve (sessionID : string) (session : nat)
    (rand : nat → nat) (w : World) : World * WsResult :=
  let '(w0, conn) := Upgrade w in
  let clientID := generateID rand in
  let client := {| Client.ID := clientID; Client.Name := EmptyString;
                   Client.Conn := Some conn;
                   Client.SessionID := sessionID |} in
  let w1 := register client session w0 in
  let w2 := set_conns w1 (sendMessage (Some conn)
                            (session_joined sessionID clientID) (conns w1)) in
  let w3 := broadcastToSession sessionID (client_joined clientID) clientID w2 in
  (spawn client session w3, WsJoined client session).

(** The whole handler, run without another handler in between;
    [upgrade_ok] tells whether [upgrader.Upgrade] succeeds. *)
Definition handleWebSocket (sessionID : string) (upgrade_ok : bool)
    (rand : nat → nat) (w : World) : World * WsResult :=
  match InMemoryStore.Sessions (store w) !! sessionID with
  | None =>
      (w, WsNotFound {| status := StatusNotFound;
                        body := BodyError "Session not found" |})
  | Some session =>
      if upgrade_ok then handleWebSocket_serve sessionID session rand w
      else (w, WsUpgradeFailed)
  end.

(** ** handleMessages *)

(** One turn of the receive loop after [ReadMessage] returned [message]
    without error. *)
Definition relay (client : Client.t) (session : nat) (message : string)
    (w : World) : World :=
  match heap w !! session with
  | None => w
  | Some s =>
      broadcastToSession (Session.ID s)
        (screen_data (Client.ID client) message) (Client.ID client) w
  end.

(** [if client.Conn != nil { client.Conn.Close() }] *)
Definition close_conn (conn : option nat) (w : World) : World :=
  match conn with
  | Some k => set_conns w (Close k (conns w))
  | None => w
  end.

(** [delete(store.Clients, client.ID); delete(session.Clients, client.ID)]
    under the store's lock. *)
Definition unregister (client : Client.t) (session : nat) (w : World) : World :=
  {| store := {| InMemoryStore.Sessions := InMemoryStore.Sessions (store w);
                 InMemoryStore.Clients :=
                   delete (Client.ID client) (InMemoryStore.Clients (store w)) |};
     heap := alter (remove_client (Client.ID client)) session (heap w);
     conns := conns w;
     goroutines := goroutines w |}.

(** The deferred function of [handleMessages]. *)
Definition leave (client : Client.t) (session : nat) (w : World) : World :=
  let w1 := unregister client session (close_conn (Client.Conn client) w) in
  match heap w1 !! session with
  | None => w1
  | Some s => broadcastToSession (Session.ID s) (client_left (Client.ID client))
                EmptyString w1
  end.

(** The goroutine of one connection: [inbound] are the messages
    [ReadMessage] returns before it returns an error (or before the
    loop is left in any other way); the deferred function runs then. *)
Definition handleMessages (client : Client.t) (session : nat)
    (inbound : list string) (w : World) : World :=
  leave client session (foldl (λ acc message, relay client session message acc) w inbound).

(** ** Runs of the server *)

(** One handler invocation each.  [OpMessage g] is one turn of the loop
    of goroutine [g], [OpDisconnect g] its end; [OpMessage] stays
    possible after the connection was closed from the server side, for
    a message that was read just before. *)
Inductive Op :=
  | OpCreateSession (req : option string) (rand : nat → nat) (now : Z)
  | OpDeleteSession (id : string)
  | OpWebSocket (sessionID : string) (upgrade_ok : bool) (rand : nat → nat)
  | OpMessage (g : nat) (message : string)
  | OpDisconnect (g : nat).

Definition set_goroutines (w : World) (gs : list (option (Client.t * nat))) : World :=
  {| store := store w; heap := heap w; conns := conns w; goroutines := gs |}.

Definition step (op : Op) (w : World) : World :=
  match op with
  | OpCreateSession req rand now => fst (createSession req rand now w)
  | OpDeleteSession id => fst (deleteSession id w)
  | OpWebSocket sessionID upgrade_ok rand =>
      fst (handleWebSocket sessionID upgrade_ok rand w)
  | OpMessage g message =>
      match goroutines w !! g with
      | Some (Some (client, session)) => relay client session message w
      | _ => w
      end
  | OpDisconnect g =>
      match goroutines w !! g with
      | Some (Some (client, session)) =>
          leave client session (set_goroutines w (<[g := None]> (goroutines w)))
      | _ => w
      end
  end.

Definition run (ops : list Op) (w : World) : World :=
  foldl (λ acc op, step op acc) w ops.

(** ** frontend/src/App.tsx: the handler of incoming messages *)

(** The two pieces of state that [ws.onmessage] updates. *)
Record AppState := mkAppState {
  clientId : option string;
  messages : list string
}.

(** [message.payload.clientId] inside a template literal: a field that
    is missing prints as "undefined". *)
Definition payload_text (m : Message) (key : string) : string :=
  default "undefined" (Payload m !! key).

(** [ws.onmessage], after [JSON.parse(event.data)]. *)
Definition onmessage (m : Message) (st : AppState) : AppState :=
  if decide (Type_ m = "session_joined") then
    {| clientId := Payload m !! "clientId"; messages := messages st |}
  else if decide (Type_ m = "client_joined") then
    {| clientId := clientId st;
       messages := messages st
                   ++ ["Client " +:+ payload_text m "clientId" +:+ " joined"] |}
  else if decide (Type_ m = "client_left") then
    {| clientId := clientId st;
       messages := messages st
                   ++ ["Client " +:+ payload_text m "clientId" +:+ " left"] |}
  else if decide (Type_ m = "screen_data") then
    {| clientId := clientId st;
       messages := messages st
                   ++ ["Received data from " +:+ payload_text m "clientId"] |}
  else st.

(** The messages of one connection, handled in the order received. *)
Definition receive (ms : list Message) (st : AppState) : AppState :=
  foldl (λ acc m, onmessage m acc) st ms.

(** The line of the activity log that an event produces. *)
Definition log_line (m : Message) : string :=
  if decide (Type_ m = "client_joined")
  then "Client " +:+ payload_text m "clientId" +:+ " joined"
  else if decide (Type_ m = "client_left")
  then "Client " +:+ payload_text m "clientId" +:+ " left"
  else "Received data from " +:+ payload_text m "clientId".

(** * Observations and invariants *)

Definition outbox (w : World) (k : nat) : list Message :=
  match conns w !! k with
  | Some c => written c
  | None => []
  end.

Definition registered (w : World) (sessionID : string) (p : nat) : Prop :=
  InMemoryStore.Sessions (store w) !! sessionID = Some p.

(** [c] is stored under the key [id] in the [Clients] map of the
    session object at [p]. *)
Definition member (w : World) (p : nat) (id : string) (c : Client.t) : Prop :=
  ∃ s, heap w !! p = Some s ∧ Session.Clients s !! id = Some c.

Definition is_open (w : World) (k : nat) : Prop :=
  closed <$> conns w !! k = Some false.

Definition is_closed (w : World) (k : nat) : Prop :=
  closed <$> conns w !! k = Some true.

(** What every run of the handlers maintains, whatever ids the random
    source produces. *)
Record world_wf (w : World) : Prop := mk_world_wf {
  wf_registered : ∀ sessionID p, registered w sessionID p →
    ∃ s, heap w !! p = Some s ∧ Session.ID s = sessionID;
  wf_key : ∀ p id c, member w p id c →
    Client.ID c = id ∧ id ≠ EmptyString;
  wf_session : ∀ p s id c, heap w !! p = Some s →
    Session.Clients s !! id = Some c → Client.SessionID c = Session.ID s;
  wf_conn : ∀ p id c, member w p id c →
    ∃ k, Client.Conn c = Some k ∧ k < length (conns w);
  wf_inj : ∀ p1 id1 c1 p2 id2 c2 k, member w p1 id1 c1 → member w p2 id2 c2 →
    Client.Conn c1 = Some k → Client.Conn c2 = Some k → p1 = p2 ∧ id1 = id2;
  wf_open : ∀ sessionID p id c k, registered w sessionID p → member w p id c →
    Client.Conn c = Some k → is_open w k;
  wf_goroutine : ∀ g c sp, goroutines w !! g = Some (Some (c, sp)) →
    sp < length (heap w) ∧ Client.ID c ≠ EmptyString ∧
    ∃ k, Client.Conn c = Some k ∧ k < length (conns w) ∧
         ∀ p id c', member w p id c' → Client.Conn c' = Some k →
                    p = sp ∧ id = Client.ID c
}.

(** The entries of the global index that are filed under a session id. *)
Definition index_of (w : World) (sessionID : string) : gmap string Client.t :=
  filter (λ kv, Client.SessionID kv.2 = sessionID) (InMemoryStore.Clients (store w)).

(** The invariant of the registry: the participant map of every
    registered session has exactly the ids that the global index files
    under the id of that session, and every entry of the global index
    is stored, under the same key, in the session registered under its
    [SessionID]. *)
Definition registry_consistent (w : World) : Prop :=
  (∀ sessionID p s, registered w sessionID p → heap w !! p = Some s →
     dom (Session.Clients s) = dom (index_of w (Session.ID s)))
  ∧ (∀ id c, InMemoryStore.Clients (store w) !! id = Some c →
       ∃ p, registered w (Client.SessionID c) p ∧ member w p id c).

(** What the runs without colliding ids maintain; [used] lists the
    client ids generated so far.  The index and the registered sessions
    agree entry by entry, every key of a session was generated, and no
    session but its own has the id of a live goroutine as a key. *)
Record ids_wf (w : World) (used : list string) : Prop := mk_ids_wf {
  iw_index : ∀ id c, InMemoryStore.Clients (store w) !! id = Some c →
    ∃ p, registered w (Client.SessionID c) p ∧ member w p id c;
  iw_member : ∀ sessionID p id c, registered w sessionID p → member w p id c →
    InMemoryStore.Clients (store w) !! id = Some c;
  iw_used : ∀ p id c, member w p id c → id ∈ used;
  iw_goroutine : ∀ g c sp, goroutines w !! g = Some (Some (c, sp)) →
    Client.ID c ∈ used ∧ ∀ q c', member w q (Client.ID c) c' → q = sp
}.

(** The client id a step generates, if any. *)
Definition minted (op : Op) (w : World) : list string :=
  match op with
  | OpWebSocket sessionID true rand =>
      match InMemoryStore.Sessions (store w) !! sessionID with
      | Some _ => [generateID rand]
      | None => []
      end
  | _ => []
  end.

(** A step draws no id that collides: a new session id is not
    registered at the time, a new client id was never generated. *)
Definition fresh_step (op : Op) (w : World) (used : list string) : bool :=
  match op with
  | OpCreateSession req rand _ =>
      match ShouldBindJSON req with
      | inr _ => bool_decide (InMemoryStore.Sessions (store w) !! generateID rand = None)
      | inl _ => true
      end
  | OpWebSocket sessionID true rand =>
      match InMemoryStore.Sessions (store w) !! sessionID with
      | Some _ => bool_decide (generateID rand ∉ used)
      | None => true
      end
  | _ => true
  end.

Fixpoint fresh_run (ops : list Op) (w : World) (used : list string) : bool :=
  match ops with
  | [] => true
  | op :: ops' =>
      fresh_step op w used && fresh_run ops' (step op w) (minted op w ++ used)
  end.

(** The stronger condition that no generated session id was generated
    before either; [used_s] and [used_c] list the session ids and the
    client ids generated so far. *)
Definition minted_session (op : Op) : list string :=
  match op with
  | OpCreateSession req rand _ =>
      match ShouldBindJSON req with
      | inr _ => [generateID rand]
      | inl _ => []
      end
  | _ => []
  end.

Definition unique_step (op : Op) (w : World) (used_s used_c : list string) : bool :=
  match op with
  | OpCreateSession req rand _ =>
      match ShouldBindJSON req with
      | inr _ => bool_decide (generateID rand ∉ used_s)
      | inl _ => true
      end
  | _ => fresh_step op w used_c
  end.

Fixpoint unique_run (ops : list Op) (w : World) (used_s used_c : list string) : bool :=
  match ops with
  | [] => true
  | op :: ops' =>
      unique_step op w used_s used_c
      && unique_run ops' (step op w) (minted_session op ++ used_s) (minted op w ++ used_c)
  end.

(** What the runs without any repeated id maintain besides: session
    objects have distinct ids, a live goroutine is still stored in the
    map of its session object, and live goroutines have distinct ids. *)
Record goroutines_wf (w : World) (used_s : list string) : Prop := mk_goroutines_wf {
  gw_used : ∀ p s, heap w !! p = Some s → Session.ID s ∈ used_s;
  gw_heap : ∀ p1 s1 p2 s2, heap w !! p1 = Some s1 → heap w !! p2 = Some s2 →
    Session.ID s1 = Session.ID s2 → p1 = p2;
  gw_member : ∀ g c sp, goroutines w !! g = Some (Some (c, sp)) →
    member w sp (Client.ID c) c;
  gw_inj : ∀ g1 c1 sp1 g2 c2 sp2, goroutines w !! g1 = Some (Some (c1, sp1)) →
    goroutines w !! g2 = Some (Some (c2, sp2)) → Client.ID c1 = Client.ID c2 → g1 = g2
}.

(** The operations other than createSession. *)
Definition creates_nothing (op : Op) : bool :=
  match op with
  | OpCreateSession _ _ _ => false
  | _ => true
  end.

(** The operations of the WebSocket side: joins, relayed messages and
    disconnects. *)
Definition is_traffic (op : Op) : bool :=
  match op with
  | OpCreateSession _ _ _ | OpDeleteSession _ => false
  | _ => true
  end.

(** The events the server sends to a connection after the first one. *)
Definition later_event (m : Message) : Prop :=
  (∃ clientID, m = client_joined clientID)
  ∨ (∃ clientID, m = client_left clientID)
  ∨ (∃ clientID data, m = screen_data clientID data).

(** The messages the server can write: the four events. *)
Definition is_event (m : Message) : Prop :=
  (∃ sessionID clientID, m = session_joined sessionID clientID) ∨ later_event m.

(** What has been written to a connection since it was upgraded:
    [session_joined], then events of the other three kinds. *)
Definition greeted (c : WsConn) : Prop :=
  ∃ sessionID clientID rest,
    written c = session_joined sessionID clientID :: rest ∧ Forall later_event rest.

(** How one connection can differ after some handlers have run: a
    closed connection is as it was, an open one has had events appended
    and may have been closed. *)
Definition conn_extends (c c' : WsConn) : Prop :=
  (closed c = true → c' = c)
  ∧ ∃ new, written c' = written c ++ new ∧ Forall later_event new.

(** The same for the table of connections: no connection disappears,
    and the new ones have been greeted. *)
Definition conns_extend (cs cs' : list WsConn) : Prop :=
  (∀ k c, cs !! k = Some c → ∃ c', cs' !! k = Some c' ∧ conn_extends c c')
  ∧ (∀ k c', cs' !! k = Some c' → length cs ≤ k → greeted c').

(** Every stored client is served: an entry of the global index is
    filed under the id of its client, and the goroutine started for a
    client that is stored in the index or in a session object has not
    returned. *)
Record served (w : World) : Prop := mk_served {
  sv_key : ∀ id c, InMemoryStore.Clients (store w) !! id = Some c → Client.ID c = id;
  sv_index : ∀ id c, InMemoryStore.Clients (store w) !! id = Some c →
    ∃ g sp, goroutines w !! g = Some (Some (c, sp));
  sv_member : ∀ p id c, member w p id c → ∃ g, goroutines w !! g = Some (Some (c, p))
}.

(** Connections and goroutines go together: handleWebSocket starts one
    goroutine for each connection it has upgraded, the goroutine holds
    that connection, and it has closed it when it returns. *)
Record attended (w : World) : Prop := mk_attended {
  at_length : length (goroutines w) = length (conns w);
  at_conn : ∀ g c sp, goroutines w !! g = Some (Some (c, sp)) → Client.Conn c = Some g;
  at_closed : ∀ g, goroutines w !! g = Some None → is_closed w g
}.

(** * The handlers, spelled out *)

Definition write_all (message : Message) (ks : list nat) (cs : list WsConn) : list WsConn :=
  foldr (λ k acc, WriteJSON k message acc) cs ks.

(** The connections one broadcast writes to, in the order of the loop. *)
Definition targets (excludeClientID : string) (members : list (string * Client.t)) : list nat :=
  omap (λ '(id, client),
          if decide (id ≠ excludeClientID) then Client.Conn client else None)
       members.

Definition close_all (ks : list nat) (cs : list WsConn) : list WsConn :=
  foldr Close cs ks.

Definition delete_all (ids : list string) (clients : gmap string Client.t)
    : gmap string Client.t :=
  foldr delete clients ids.

Definition member_conns (members : list (string * Client.t)) : list nat :=
  omap (λ kv, Client.Conn kv.2) members.

Definition member_ids (members : list (string * Client.t)) : list string :=
  (λ kv, Client.ID kv.2) <$> members.

(** deleteSession on a registered id, spelled out. *)
Definition deleted (id : string) (s : Session.t) (w : World) : World :=
  {| store := {| InMemoryStore.Sessions := delete id (InMemoryStore.Sessions (store w));
                 InMemoryStore.Clients :=
                   delete_all (member_ids (map_to_list (Session.Clients s)))
                              (InMemoryStore.Clients (store w)) |};
     heap := heap w;
     conns := close_all (member_conns (map_to_list (Session.Clients s))) (conns w);
     goroutines := goroutines w |}.

(** createSession with a valid name, spelled out. *)
Definition created (name : string) (rand : nat → nat) (now : Z) (w : World) : World :=
  {| store := {| InMemoryStore.Sessions :=
                   <[generateID rand := length (heap w)]> (InMemoryStore.Sessions (store w));
                 InMemoryStore.Clients := InMemoryStore.Clients (store w) |};
     heap := heap w ++ [{| Session.ID := generateID rand; Session.Name := name;
                           Session.CreatedAt := now; Session.Clients := ∅ |}];
     conns := conns w;
     goroutines := goroutines w |}.

(** The client that handleWebSocket builds. *)
Definition new_client (sessionID : string) (rand : nat → nat) (conn : nat) : Client.t :=
  {| Client.ID := generateID rand; Client.Name := EmptyString;
     Client.Conn := Some conn; Client.SessionID := sessionID |}.

(** * Sample runs *)

(** Random sources that repeat one draw: [rA] makes generateID return
    "id_aaaaaaaa", [rS] "id_ssssssss", and so on. *)
Definition rA : nat → nat := λ _, 0.
Definition rB : nat → nat := λ _, 1.
Definition rC : nat → nat := λ _, 2.
Definition rD : nat → nat := λ _, 3.
Definition rS : nat → nat := λ _, 18.

(** One session "Demo" with two clients, on connections 0 and 1. *)
Definition two_joined : World :=
  run [OpCreateSession (Some "Demo") rS 1700000000%Z;
       OpWebSocket "id_ssssssss" true rA;
       OpWebSocket "id_ssssssss" true rB] NewWorld.

Definition clientA : Client.t := new_client "id_ssssssss" rA 0.
Definition clientB : Client.t := new_client "id_ssssssss" rB 1.

Definition demo_session : Session.t :=
  {| Session.ID := "id_ssssssss"; Session.Name := "Demo";
     Session.CreatedAt := 1700000000%Z;
     Session.Clients := <["id_aaaaaaaa" := clientA]> (<["id_bbbbbbbb" := clientB]> ∅) |}.

(** A run with every kind of operation and no colliding id. *)
Definition busy_run : list Op :=
  [OpCreateSession (Some "Demo") rS 1700000000%Z;
   OpWebSocket "id_ssssssss" true rA;
   OpWebSocket "id_ssssssss" true rB;
   OpMessage 0 "ping";
   OpCreateSession (Some "Other") rC 1700000001%Z;
   OpWebSocket "id_cccccccc" true rD;
   OpDisconnect 1;
   OpDeleteSession "id_ssssssss";
   OpDisconnect 0].

(** "Demo" with two clients and "Other" with one. *)
Definition two_sessions_ops : list Op :=
  [OpCreateSession (Some "Demo") rS 1700000000%Z;
   OpWebSocket "id_ssssssss" true rA;
   OpWebSocket "id_ssssssss" true rB;
   OpCreateSession (Some "Other") rC 1700000001%Z;
   OpWebSocket "id_cccccccc" true rD].

Definition two_sessions : World := run two_sessions_ops NewWorld.

Definition clientD : Client.t := new_client "id_cccccccc" rD 2.

(** "Demo" with its first client only. *)
Definition one_joined : World :=
  run [OpCreateSession (Some "Demo") rS 1700000000%Z;
       OpWebSocket "id_ssssssss" true rA] NewWorld.

Definition lone_session : Session.t :=
  {| Session.ID := "id_ssssssss"; Session.Name := "Demo";
     Session.CreatedAt := 1700000000%Z;
     Session.Clients := <["id_aaaaaaaa" := clientA]> ∅ |}.

(** A run in which the random source repeats itself: the second client
    gets the id of the first, in the same session; a third client
    watches.  Then the first, or the second, disconnects. *)
Definition same_id_twice : list Op :=
  [OpCreateSession (Some "Demo") rS 1700000000%Z;
   OpWebSocket "id_ssssssss" true rA;
   OpWebSocket "id_ssssssss" true rA;
   OpWebSocket "id_ssssssss" true rB].

Definition clientA' : Client.t := new_client "id_ssssssss" rA 1.
Definition clientB2 : Client.t := new_client "id_ssssssss" rB 2.

Definition first_left : World := run (same_id_twice ++ [OpDisconnect 0]) NewWorld.
Definition second_left : World := run (same_id_twice ++ [OpDisconnect 1]) NewWorld.

Definition watcher_session : Session.t :=
  {| Session.ID := "id_ssssssss"; Session.Name := "Demo";
     Session.CreatedAt := 1700000000%Z;
     Session.Clients := <["id_bbbbbbbb" := clientB2]> ∅ |}.

(** "Demo" deleted while the goroutines of its two clients are live. *)
Definition join_then_delete : list Op :=
  [OpCreateSession (Some "Demo") rS 1700000000%Z;
   OpWebSocket "id_ssssssss" true rA;
   OpWebSocket "id_ssssssss" true rB;
   OpDeleteSession "id_ssssssss"].

Definition after_delete : World := run join_then_delete NewWorld.

(** The scenario of the specification: two clients join "Demo", the
    first sends "ping", the second disconnects, the session is deleted. *)
Definition scenario : list Op :=
  [OpCreateSession (Some "Demo") rS 1700000000%Z;
   OpWebSocket "id_ssssssss" true rA;
   OpWebSocket "id_ssssssss" true rB;
   OpMessage 0 "ping";
   OpDisconnect 1;
   OpDeleteSession "id_ssssssss"].

(** A join whose lookup found the session, overtaken by deleteSession
    before its registration. *)
Definition only_session : World :=
  run [OpCreateSession (Some "Demo") rS 1700000000%Z] NewWorld.

Definition overtaken : World :=
  (handleWebSocket_serve "id_ssssssss" 0 rA
     (deleteSession "id_ssssssss" only_session).1).1.

(** Two sessions, and a second client that draws the id of the first
    while joining the other session. *)
Definition shared_id_ops : list Op :=
  [OpCreateSession (Some "Demo") rS 1700000000%Z;
   OpCreateSession (Some "Other") rC 1700000001%Z;
   OpWebSocket "id_ssssssss" true rA;
   OpWebSocket "id_cccccccc" true rA].

Definition shared_id : World := run shared_id_ops NewWorld.

Definition clientA_other : Client.t := new_client "id_cccccccc" rA 1.

(** A joining client that sends two messages and disconnects; traffic
    only. *)
Definition traffic_only : list Op :=
  [OpWebSocket "id_ssssssss" true rB; OpMessage 0 "ping"; OpMessage 1 "pong";
   OpDisconnect 0].

Definition empty_demo : Session.t :=
  {| Session.ID := "id_ssssssss"; Session.Name := "Demo";
     Session.CreatedAt := 1700000000%Z; Session.Clients := ∅ |}.

(** * Properties *)

(** ** The scenario of the specification, computed *)

Example scenario_outboxes :
  outbox (run scenario NewWorld) 0
  = [session_joined "id_ssssssss" "id_aaaaaaaa"; client_joined "id_bbbbbbbb";
     client_left "id_bbbbbbbb"]
  ∧ outbox (run scenario NewWorld) 1
    = [session_joined "id_ssssssss" "id_bbbbbbbb"; screen_data "id_aaaaaaaa" "ping"]
  ∧ is_closed (run scenario NewWorld) 0
  ∧ status (getSession "id_ssssssss" (run scenario NewWorld)) = StatusNotFound.
Proof. vm_compute. repeat split; reflexivity. Qed.

(** ** Connections: what a loop of sends does to each of them *)

Lemma broadcast_loop_targets message ex members cs :
  broadcast_loop message ex members cs = write_all message (targets ex members) cs.
Proof.
  induction members as [|[id c] members IH]; [done|].
  unfold broadcast_loop, targets in *. cbn [foldr omap list_omap]. rewrite IH.
  destruct (decide (id ≠ ex)); [|done]. by destruct (Client.Conn c).
Qed.

Lemma write_all_cons message k ks cs :
  write_all message (k :: ks) cs = WriteJSON k message (write_all message ks cs).
Proof. reflexivity. Qed.

Lemma write_all_length message ks cs :
  length (write_all message ks cs) = length cs.
Proof.
  induction ks as [|k ks IH]; [done|].
  rewrite write_all_cons. unfold WriteJSON. by rewrite length_alter.
Qed.

Lemma write_all_notin message ks cs j :
  j ∉ ks → write_all message ks cs !! j = cs !! j.
Proof.
  induction ks as [|k ks IH]; [done|]. intros Hj.
  apply not_elem_of_cons in Hj as [Hne Hj].
  rewrite write_all_cons. unfold WriteJSON.
  rewrite list_lookup_alter_ne by done. by apply IH.
Qed.

Lemma write_all_once message ks cs j :
  NoDup ks → j ∈ ks → write_all message ks cs !! j = deliver message <$> cs !! j.
Proof.
  induction ks as [|k ks IH]; intros Hnd Hj; [by apply elem_of_nil in Hj|].
  apply NoDup_cons in Hnd as [Hk Hnd].
  rewrite write_all_cons. unfold WriteJSON.
  apply elem_of_cons in Hj as [->|Hj].
  - rewrite list_lookup_alter_eq. by rewrite write_all_notin.
  - rewrite list_lookup_alter_ne by (intros ->; done). by apply IH.
Qed.

Lemma write_all_closed message ks cs j :
  closed <$> write_all message ks cs !! j = closed <$> cs !! j.
Proof.
  induction ks as [|k ks IH]; [done|].
  rewrite write_all_cons. unfold WriteJSON.
  destruct (decide (k = j)) as [->|Hne].
  - rewrite list_lookup_alter_eq.
    rewrite <- IH. destruct (write_all message ks cs !! j) as [c|]; [|done].
    cbn. unfold deliver. by destruct (closed c) eqn:E; cbn; rewrite ?E.
  - by rewrite list_lookup_alter_ne.
Qed.

Lemma elem_of_targets ex members k :
  k ∈ targets ex members ↔
  ∃ id c, (id, c) ∈ members ∧ id ≠ ex ∧ Client.Conn c = Some k.
Proof.
  unfold targets. rewrite list_elem_of_omap. split.
  - intros [[id c] [Hin Hf]]. case_decide; [|done]. eauto.
  - intros (id & c & Hin & Hne & Hk). exists (id, c). split; [done|].
    by rewrite decide_True.
Qed.

Lemma NoDup_targets ex members :
  NoDup members →
  (∀ id1 c1 id2 c2 k, (id1, c1) ∈ members → (id2, c2) ∈ members →
     Client.Conn c1 = Some k → Client.Conn c2 = Some k → id1 = id2 ∧ c1 = c2) →
  NoDup (targets ex members).
Proof.
  induction members as [|[id c] members IH]; intros Hnd Hinj; [constructor|].
  apply NoDup_cons in Hnd as [Hx Hnd]. unfold targets. cbn [omap list_omap]. fold (targets ex members).
  assert (NoDup (targets ex members)) as Hrest.
  { apply IH; [done|]. intros ?????????. eapply Hinj; by try apply list_elem_of_further. }
  case_decide; [|done]. destruct (Client.Conn c) as [k|] eqn:Hk; [|done].
  apply NoDup_cons. split; [|done].
  intros (id' & c' & Hin & _ & Hk')%elem_of_targets.
  destruct (Hinj id c id' c' k) as [-> ->]; try done.
  - apply list_elem_of_here.
  - by apply list_elem_of_further.
Qed.

Lemma elem_of_session_targets ex (s : Session.t) k :
  k ∈ targets ex (map_to_list (Session.Clients s)) ↔
  ∃ id c, Session.Clients s !! id = Some c ∧ id ≠ ex ∧ Client.Conn c = Some k.
Proof.
  rewrite elem_of_targets. split.
  - intros (id & c & Hin%elem_of_map_to_list & ? & ?). eauto.
  - intros (id & c & Hin%elem_of_map_to_list & ? & ?). eauto.
Qed.

Lemma NoDup_session_targets ex (s : Session.t) :
  (∀ id1 c1 id2 c2 k, Session.Clients s !! id1 = Some c1 →
     Session.Clients s !! id2 = Some c2 →
     Client.Conn c1 = Some k → Client.Conn c2 = Some k → id1 = id2) →
  NoDup (targets ex (map_to_list (Session.Clients s))).
Proof.
  intros Hinj. apply NoDup_targets; [apply NoDup_map_to_list|].
  intros id1 c1 id2 c2 k H1%elem_of_map_to_list H2%elem_of_map_to_list Hk1 Hk2.
  assert (id1 = id2) as -> by eauto. split; congruence.
Qed.

(** ** The order of a range over a map does not show *)

Lemma WriteJSON_commute k1 k2 message cs :
  WriteJSON k1 message (WriteJSON k2 message cs)
  = WriteJSON k2 message (WriteJSON k1 message cs).
Proof.
  unfold WriteJSON. destruct (decide (k1 = k2)) as [->|Hne]; [done|].
  by apply list_alter_alter_ne.
Qed.

Lemma Close_commute k1 k2 cs : Close k1 (Close k2 cs) = Close k2 (Close k1 cs).
Proof.
  unfold Close. destruct (decide (k1 = k2)) as [->|Hne]; [done|].
  by apply list_alter_alter_ne.
Qed.

Lemma broadcast_loop_order message ex l1 l2 cs :
  l1 ≡ₚ l2 → broadcast_loop message ex l1 cs = broadcast_loop message ex l2 cs.
Proof.
  intros Hperm. unfold broadcast_loop.
  apply (foldr_permutation (=)); [solve_proper| |done].
  intros _ [id1 c1] _ [id2 c2] acc _ _ _.
  repeat case_decide; try done.
  destruct (Client.Conn c1), (Client.Conn c2); cbn; try done.
  apply WriteJSON_commute.
Qed.

Lemma delete_loop_order l1 l2 acc :
  l1 ≡ₚ l2 → delete_loop l1 acc = delete_loop l2 acc.
Proof.
  intros Hperm. unfold delete_loop.
  apply (foldr_permutation (=)); [solve_proper| |done].
  intros _ [id1 c1] _ [id2 c2] [cs clients] _ _ _.
  rewrite delete_delete. f_equal.
  destruct (Client.Conn c1), (Client.Conn c2); try done.
  apply Close_commute.
Qed.

(** ** broadcastToSession touches the connections only *)

Lemma broadcast_store sessionID message ex w :
  store (broadcastToSession sessionID message ex w) = store w.
Proof. unfold broadcastToSession. by repeat case_match. Qed.

Lemma broadcast_heap sessionID message ex w :
  heap (broadcastToSession sessionID message ex w) = heap w.
Proof. unfold broadcastToSession. by repeat case_match. Qed.

Lemma broadcast_goroutines sessionID message ex w :
  goroutines (broadcastToSession sessionID message ex w) = goroutines w.
Proof. unfold broadcastToSession. by repeat case_match. Qed.

Lemma broadcast_conns sessionID message ex w p s :
  InMemoryStore.Sessions (store w) !! sessionID = Some p →
  heap w !! p = Some s →
  conns (broadcastToSession sessionID message ex w)
  = write_all message (targets ex (map_to_list (Session.Clients s))) (conns w).
Proof.
  intros Hp Hs. unfold broadcastToSession. rewrite Hp, Hs. cbn.
  apply broadcast_loop_targets.
Qed.

Lemma broadcast_unregistered sessionID message ex w :
  InMemoryStore.Sessions (store w) !! sessionID = None →
  broadcastToSession sessionID message ex w = w.
Proof. intros Hp. unfold broadcastToSession. by rewrite Hp. Qed.

Lemma broadcast_conns_length sessionID message ex w :
  length (conns (broadcastToSession sessionID message ex w)) = length (conns w).
Proof.
  unfold broadcastToSession. repeat case_match; try done. cbn.
  rewrite broadcast_loop_targets. apply write_all_length.
Qed.

Lemma broadcast_closed sessionID message ex w j :
  closed <$> conns (broadcastToSession sessionID message ex w) !! j
  = closed <$> conns w !! j.
Proof.
  unfold broadcastToSession. repeat case_match; try done. cbn.
  rewrite broadcast_loop_targets. apply write_all_closed.
Qed.

(** ** Membership after the locked sections *)

Lemma member_register client p w q id c :
  member (register client p w) q id c ↔
  (q = p ∧ p < length (heap w) ∧ id = Client.ID client ∧ c = client)
  ∨ (member w q id c ∧ ¬ (q = p ∧ id = Client.ID client)).
Proof.
  unfold member, register; cbn. destruct (decide (q = p)) as [->|Hq].
  - rewrite list_lookup_alter_eq. destruct (heap w !! p) as [s|] eqn:Hs; cbn.
    + apply lookup_lt_Some in Hs as Hlt.
      destruct (decide (id = Client.ID client)) as [->|Hid].
      * split.
        -- intros (s' & [= <-] & Hc). cbn in Hc. rewrite lookup_insert_eq in Hc.
           left. naive_solver.
        -- intros [(_ & _ & _ & ->)|[_ []]]; [|done].
           eexists. split; [done|]. cbn. by rewrite lookup_insert_eq.
      * split.
        -- intros (s' & [= <-] & Hc). cbn in Hc. rewrite lookup_insert_ne in Hc by done.
           right. split; [eauto|]. naive_solver.
        -- intros [(_ & _ & ? & _)|[(s' & [= <-] & Hc) _]]; [done|].
           eexists. split; [done|]. cbn. by rewrite lookup_insert_ne.
    + split; [naive_solver|]. intros [(_ & Hlt & _)|[(s' & ? & _) _]]; [|done].
      apply lookup_ge_None in Hs. lia.
  - rewrite list_lookup_alter_ne by done. naive_solver.
Qed.

Lemma member_unregister client p w q id c :
  member (unregister client p w) q id c ↔
  member w q id c ∧ ¬ (q = p ∧ id = Client.ID client).
Proof.
  unfold member, unregister; cbn. destruct (decide (q = p)) as [->|Hq].
  - rewrite list_lookup_alter_eq. destruct (heap w !! p) as [s|] eqn:Hs; cbn.
    + destruct (decide (id = Client.ID client)) as [->|Hid].
      * split.
        -- intros (s' & [= <-] & Hc). cbn in Hc. by rewrite lookup_delete_eq in Hc.
        -- intros [_ []]. done.
      * split.
        -- intros (s' & [= <-] & Hc). cbn in Hc. rewrite lookup_delete_ne in Hc by done.
           split; [eauto|]. naive_solver.
        -- intros [(s' & [= <-] & Hc) _].
           eexists. split; [done|]. cbn. by rewrite lookup_delete_ne.
    + naive_solver.
  - rewrite list_lookup_alter_ne by done. naive_solver.
Qed.

Lemma member_snoc w w' h q id c :
  heap w' = heap w ++ [h] →
  member w' q id c ↔
  member w q id c ∨ (q = length (heap w) ∧ Session.Clients h !! id = Some c).
Proof.
  intros Hh. unfold member. rewrite Hh. split.
  - intros (s & Hs & Hc). apply lookup_app_Some in Hs as [Hs|[Hge Hs]]; [eauto|].
    right. apply list_lookup_singleton_Some in Hs as [Hq ->]. split; [lia|done].
  - intros [(s & Hs & Hc)|[-> Hc]].
    + exists s. split; [|done]. by apply lookup_app_l_Some.
    + exists h. split; [|done]. rewrite lookup_app_r by lia.
      by rewrite Nat.sub_diag.
Qed.

(** ** Well-formedness is kept by every handler *)

Lemma world_wf_new : world_wf NewWorld.
Proof.
  constructor; unfold registered, member; cbn.
  - intros ?? H. by rewrite lookup_empty in H.
  - intros ??? (? & H & _). by rewrite lookup_nil in H.
  - intros ???? H. by rewrite lookup_nil in H.
  - intros ??? (? & H & _). by rewrite lookup_nil in H.
  - intros ??????? (? & H & _). by rewrite lookup_nil in H.
  - intros ????? H. by rewrite lookup_empty in H.
  - intros ??? H. by rewrite lookup_nil in H.
Qed.

(** Writing to connections changes neither the registry nor which
    connections are closed. *)
Lemma world_wf_skeleton w w' :
  store w' = store w → heap w' = heap w → goroutines w' = goroutines w →
  length (conns w') = length (conns w) →
  (∀ j, closed <$> conns w' !! j = closed <$> conns w !! j) →
  world_wf w → world_wf w'.
Proof.
  intros Hst Hh Hg Hlen Hcl [H1 H2 H3 H4 H5 H6 H7].
  constructor; unfold registered, member, is_open in *;
    rewrite ?Hst, ?Hh, ?Hg, ?Hlen; try done.
  intros sessionID p id c k Hr Hm Hk. rewrite Hcl. eauto.
Qed.

Lemma world_wf_broadcast sessionID message ex w :
  world_wf w → world_wf (broadcastToSession sessionID message ex w).
Proof.
  apply world_wf_skeleton.
  - apply broadcast_store.
  - apply broadcast_heap.
  - apply broadcast_goroutines.
  - apply broadcast_conns_length.
  - apply broadcast_closed.
Qed.

Lemma world_wf_relay client session message w :
  world_wf w → world_wf (relay client session message w).
Proof.
  intros Hwf. unfold relay. destruct (heap w !! session); [|done].
  by apply world_wf_broadcast.
Qed.

Lemma world_wf_createSession req rand now w :
  world_wf w → world_wf (createSession req rand now w).1.
Proof.
  intros [H1 H2 H3 H4 H5 H6 H7]. unfold createSession.
  destruct (ShouldBindJSON req) as [err|name]; [done|]. cbn.
  set (h := {| Session.ID := generateID rand; Session.Name := name;
               Session.CreatedAt := now; Session.Clients := ∅ |}).
  assert (Hmem : ∀ q id c,
    member {| store := {| InMemoryStore.Sessions :=
                            <[generateID rand := length (heap w)]>
                              (InMemoryStore.Sessions (store w));
                          InMemoryStore.Clients := InMemoryStore.Clients (store w) |};
              heap := heap w ++ [h]; conns := conns w; goroutines := goroutines w |}
           q id c ↔ member w q id c).
  { intros q id c. unfold member; cbn. split.
    - intros (s & Hs & Hc). apply lookup_app_Some in Hs as [Hs|[Hge Hs]]; [eauto|].
      apply list_lookup_singleton_Some in Hs as [Hq <-]. done.
    - intros (s & Hs & Hc). exists s. split; [|done]. by apply lookup_app_l_Some. }
  constructor.
  - intros sessionID p Hr. unfold registered in Hr; cbn in Hr |- *.
    apply lookup_insert_Some in Hr as [[<- <-]|[Hne Hr]].
    + exists h. split; [|done]. rewrite lookup_app_r by lia. by rewrite Nat.sub_diag.
    + destruct (H1 _ _ Hr) as (s & Hs & Hid). exists s. split; [|done].
      by apply lookup_app_l_Some.
  - intros p id c Hm%Hmem. eauto.
  - intros p s id c Hs Hc. cbn in Hs.
    apply lookup_app_Some in Hs as [Hs|[Hge Hs]]; [eauto|].
    apply list_lookup_singleton_Some in Hs as [Hq <-]. done.
  - intros p id c Hm%Hmem. cbn. eauto.
  - intros p1 id1 c1 p2 id2 c2 k Hm1%Hmem Hm2%Hmem. eauto.
  - intros sessionID p id c k Hr Hm%Hmem Hk. unfold registered in Hr; cbn in Hr.
    apply lookup_insert_Some in Hr as [[<- <-]|[Hne Hr]].
    + destruct Hm as (s & Hs & _). apply lookup_lt_Some in Hs. lia.
    + unfold is_open; cbn. by eapply H6.
  - intros g c sp Hg. cbn in Hg. destruct (H7 _ _ _ Hg) as (Hsp & Hid & k & Hk & Hlt & Hown).
    cbn. rewrite length_app. split; [lia|]. split; [done|].
    exists k. split; [done|]. split; [done|].
    intros p id c' Hm%Hmem. eauto.
Qed.

(** ** The loop of deleteSession *)

Lemma delete_loop_split members cs clients :
  delete_loop members (cs, clients)
  = (close_all (member_conns members) cs, delete_all (member_ids members) clients).
Proof.
  induction members as [|[id c] members IH]; [done|].
  unfold delete_loop, member_conns, member_ids in *.
  cbn [foldr omap list_omap fmap list_fmap]. rewrite IH. cbn.
  by destruct (Client.Conn c).
Qed.

Lemma close_all_cons k ks cs : close_all (k :: ks) cs = Close k (close_all ks cs).
Proof. reflexivity. Qed.

Lemma close_all_length ks cs : length (close_all ks cs) = length cs.
Proof.
  induction ks as [|k ks IH]; [done|].
  rewrite close_all_cons. unfold Close. by rewrite length_alter.
Qed.

Lemma close_all_notin ks cs j : j ∉ ks → close_all ks cs !! j = cs !! j.
Proof.
  induction ks as [|k ks IH]; [done|]. intros [Hne Hj]%not_elem_of_cons.
  rewrite close_all_cons. unfold Close. rewrite list_lookup_alter_ne by done.
  by apply IH.
Qed.

Lemma close_all_written ks cs j :
  written <$> close_all ks cs !! j = written <$> cs !! j.
Proof.
  induction ks as [|k ks IH]; [done|]. rewrite close_all_cons. unfold Close.
  destruct (decide (k = j)) as [->|Hne].
  - rewrite list_lookup_alter_eq. rewrite <- IH.
    by destruct (close_all ks cs !! j).
  - by rewrite list_lookup_alter_ne.
Qed.

Lemma close_all_in ks cs j :
  j ∈ ks → closed <$> close_all ks cs !! j = (λ _, true) <$> cs !! j.
Proof.
  induction ks as [|k ks IH]; intros Hj; [by apply elem_of_nil in Hj|].
  rewrite close_all_cons. unfold Close. destruct (decide (k = j)) as [->|Hne].
  - rewrite list_lookup_alter_eq.
    pose proof (close_all_written ks cs j) as Hw.
    destruct (close_all ks cs !! j), (cs !! j); done.
  - rewrite list_lookup_alter_ne by done. apply elem_of_cons in Hj as [->|Hj]; [done|].
    by apply IH.
Qed.

Lemma delete_all_lookup ids (clients : gmap string Client.t) id :
  delete_all ids clients !! id = if decide (id ∈ ids) then None else clients !! id.
Proof.
  induction ids as [|i ids IH]; cbn.
  - rewrite decide_False; [done|]. apply not_elem_of_nil.
  - destruct (decide (i = id)) as [->|Hne].
    + rewrite lookup_delete_eq. rewrite decide_True; [done|]. apply list_elem_of_here.
    + rewrite lookup_delete_ne by done. fold (delete_all ids clients). rewrite IH.
      destruct (decide (id ∈ ids)).
      * rewrite decide_True; [done|]. by apply list_elem_of_further.
      * rewrite decide_False; [done|]. intros [?|?]%elem_of_cons; congruence.
Qed.

Lemma elem_of_member_conns (s : Session.t) k :
  k ∈ member_conns (map_to_list (Session.Clients s)) ↔
  ∃ id c, Session.Clients s !! id = Some c ∧ Client.Conn c = Some k.
Proof.
  unfold member_conns. rewrite list_elem_of_omap. split.
  - intros [[id c] [Hin%elem_of_map_to_list Hk]]. eauto.
  - intros (id & c & Hin%elem_of_map_to_list & Hk). by exists (id, c).
Qed.

Lemma elem_of_member_ids (s : Session.t) i :
  i ∈ member_ids (map_to_list (Session.Clients s)) ↔
  ∃ id c, Session.Clients s !! id = Some c ∧ Client.ID c = i.
Proof.
  unfold member_ids. rewrite list_elem_of_fmap. split.
  - intros [[id c] [-> Hin%elem_of_map_to_list]]. eauto.
  - intros (id & c & Hin%elem_of_map_to_list & <-). by exists (id, c).
Qed.

Lemma deleteSession_registered id w p s :
  registered w id p → heap w !! p = Some s →
  deleteSession id w
  = (deleted id s w, {| status := StatusNoContent; body := BodyNone |}).
Proof.
  intros Hr Hs. unfold deleteSession, registered in *. rewrite Hr, Hs.
  by rewrite delete_loop_split.
Qed.

Lemma deleteSession_unregistered id w :
  InMemoryStore.Sessions (store w) !! id = None →
  deleteSession id w
  = (w, {| status := StatusNotFound; body := BodyError "Session not found" |}).
Proof. intros Hr. unfold deleteSession. by rewrite Hr. Qed.

Lemma world_wf_deleted id w p s :
  world_wf w → registered w id p → heap w !! p = Some s → world_wf (deleted id s w).
Proof.
  intros [H1 H2 H3 H4 H5 H6 H7] Hr Hs.
  constructor; unfold registered, member, is_open in *; cbn;
    rewrite ?close_all_length; try done.
  - intros sessionID q [_ Hq]%lookup_delete_Some. eauto.
  - intros sessionID q id' c k [Hne Hq]%lookup_delete_Some Hm Hk.
    rewrite close_all_notin; [by eapply H6|].
    intros (id2 & c2 & Hc2 & Hk2)%elem_of_member_conns.
    destruct (H5 q id' c p id2 c2 k) as [-> _]; eauto.
    destruct (H1 _ _ Hr) as (s1 & Hs1 & <-). destruct (H1 _ _ Hq) as (s2 & Hs2 & <-).
    congruence.
Qed.

Lemma world_wf_deleteSession id w :
  world_wf w → world_wf (deleteSession id w).1.
Proof.
  intros Hwf. destruct (InMemoryStore.Sessions (store w) !! id) as [p|] eqn:Hr.
  - destruct (wf_registered _ Hwf _ _ Hr) as (s & Hs & _).
    rewrite (deleteSession_registered _ _ _ _ Hr Hs). by eapply world_wf_deleted.
  - by rewrite deleteSession_unregistered.
Qed.

Lemma generateID_nonempty rand : generateID rand ≠ EmptyString.
Proof. unfold generateID. cbn. discriminate. Qed.

Lemma heap_alter_lookup (f : Session.t → Session.t) p q (h : list Session.t) s' :
  alter f p h !! q = Some s' →
  ∃ s, h !! q = Some s ∧ s' = (if decide (p = q) then f s else s).
Proof.
  rewrite list_lookup_alter. destruct (decide (p = q)) as [->|?].
  - destruct (h !! q); naive_solver.
  - naive_solver.
Qed.

Lemma world_wf_join sessionID rand p w :
  world_wf w → registered w sessionID p →
  world_wf (spawn (new_client sessionID rand (length (conns w))) p
              (register (new_client sessionID rand (length (conns w))) p (Upgrade w).1)).
Proof.
  intros [H1 H2 H3 H4 H5 H6 H7] Hr.
  destruct (H1 _ _ Hr) as (sp & Hsp & Hspid).
  set (client := new_client sessionID rand (length (conns w))).
  set (w0 := (Upgrade w).1).
  assert (Hmem0 : ∀ q id c, member w0 q id c ↔ member w q id c) by done.
  assert (Hmem : ∀ q id c, member (spawn client p (register client p w0)) q id c ↔
                 (q = p ∧ id = Client.ID client ∧ c = client)
                 ∨ (member w q id c ∧ ¬ (q = p ∧ id = Client.ID client))).
  { intros q id c.
    change (member (register client p w0) q id c ↔
      (q = p ∧ id = Client.ID client ∧ c = client)
      ∨ (member w q id c ∧ ¬ (q = p ∧ id = Client.ID client))).
    rewrite member_register, Hmem0. apply lookup_lt_Some in Hsp.
    change (heap w0) with (heap w). naive_solver. }
  assert (Hold : ∀ q id c k, member w q id c → Client.Conn c = Some k →
                 k < length (conns w)).
  { intros q id c k Hm Hk. destruct (H4 _ _ _ Hm) as (k' & Hk' & Hlt). congruence. }
  constructor.
  - intros sid q Hq. change (registered w sid q) in Hq.
    destruct (H1 _ _ Hq) as (s & Hs & Hid). cbn.
    rewrite list_lookup_alter. case_decide; [|eauto]. subst q. rewrite Hs. eauto.
  - intros q id c [(-> & -> & ->)|[Hm _]]%Hmem; [|eauto].
    split; [done|]. apply generateID_nonempty.
  - intros q s' id c Hs' Hc. cbn in Hs'.
    apply heap_alter_lookup in Hs' as (s & Hs & ->). case_decide as Hq; [|eauto].
    subst q. cbn in Hc |- *. assert (s = sp) as -> by congruence.
    apply lookup_insert_Some in Hc as [[_ <-]|[_ Hc]]; [done|eauto].
  - intros q id c [(-> & -> & ->)|[Hm _]]%Hmem; cbn; rewrite length_app; cbn.
    + exists (length (conns w)). split; [done|lia].
    + destruct (H4 _ _ _ Hm) as (k & Hk & Hlt). exists k. split; [done|lia].
  - intros q1 id1 c1 q2 id2 c2 k
      [(-> & -> & ->)|[Hm1 _]]%Hmem [(-> & -> & ->)|[Hm2 _]]%Hmem Hk1 Hk2.
    + done.
    + cbn in Hk1. injection Hk1 as <-. pose proof (Hold _ _ _ _ Hm2 Hk2). lia.
    + cbn in Hk2. injection Hk2 as <-. pose proof (Hold _ _ _ _ Hm1 Hk1). lia.
    + eauto.
  - intros sid q id c k Hq [(-> & -> & ->)|[Hm _]]%Hmem Hk; unfold is_open; cbn.
    + cbn in Hk. injection Hk as <-. rewrite lookup_app_r by lia.
      by rewrite Nat.sub_diag.
    + change (registered w sid q) in Hq.
      rewrite lookup_app_l by (by eapply Hold). by eapply H6.
  - intros g c sp' Hg. cbn in Hg |- *. rewrite length_alter, length_app. cbn.
    apply lookup_app_Some in Hg as [Hg|[_ Hg]].
    + destruct (H7 _ _ _ Hg) as (Hlt & Hid & k & Hk & Hklt & Hown).
      split; [done|]. split; [done|]. exists k. split; [done|]. split; [lia|].
      intros q id c' [(-> & -> & ->)|[Hm _]]%Hmem Hk'; [|eauto].
      cbn in Hk'. injection Hk' as <-. lia.
    + apply list_lookup_singleton_Some in Hg as [_ [= <- <-]].
      split; [by eapply lookup_lt_Some|]. split; [apply generateID_nonempty|].
      exists (length (conns w)). split; [done|]. split; [lia|].
      intros q id c' [(-> & -> & ->)|[Hm _]]%Hmem Hk'; [done|].
      pose proof (Hold _ _ _ _ Hm Hk'). lia.
Qed.

Lemma handleWebSocket_joined sessionID rand w p :
  registered w sessionID p →
  handleWebSocket sessionID true rand w
  = (let client := new_client sessionID rand (length (conns w)) in
     let w1 := register client p (Upgrade w).1 in
     let w2 := set_conns w1 (sendMessage (Some (length (conns w)))
                 (session_joined sessionID (generateID rand)) (conns w1)) in
     (spawn client p
        (broadcastToSession sessionID (client_joined (generateID rand))
           (generateID rand) w2),
      WsJoined client p)).
Proof.
  intros Hr. unfold handleWebSocket, handleWebSocket_serve, registered in *.
  by rewrite Hr.
Qed.

Lemma handleWebSocket_not_found sessionID upgrade_ok rand w :
  InMemoryStore.Sessions (store w) !! sessionID = None →
  handleWebSocket sessionID upgrade_ok rand w
  = (w, WsNotFound {| status := StatusNotFound; body := BodyError "Session not found" |}).
Proof. intros Hr. unfold handleWebSocket. by rewrite Hr. Qed.

Lemma WriteJSON_closed k message cs j :
  closed <$> WriteJSON k message cs !! j = closed <$> cs !! j.
Proof. apply (write_all_closed message [k]). Qed.

Lemma WriteJSON_length k message cs : length (WriteJSON k message cs) = length cs.
Proof. apply (write_all_length message [k]). Qed.

Lemma world_wf_handleWebSocket sessionID upgrade_ok rand w :
  world_wf w → world_wf (handleWebSocket sessionID upgrade_ok rand w).1.
Proof.
  intros Hwf. destruct (InMemoryStore.Sessions (store w) !! sessionID) as [p|] eqn:Hr.
  - destruct upgrade_ok.
    + rewrite (handleWebSocket_joined _ _ _ _ Hr). cbn zeta.
      eapply world_wf_skeleton; [..|by apply (world_wf_join sessionID rand p)]; cbn.
      * by rewrite broadcast_store.
      * by rewrite broadcast_heap.
      * by rewrite broadcast_goroutines.
      * by rewrite broadcast_conns_length; cbn; rewrite WriteJSON_length.
      * intros j. rewrite broadcast_closed. cbn. apply WriteJSON_closed.
    + unfold handleWebSocket. by rewrite Hr.
  - by rewrite handleWebSocket_not_found.
Qed.

Lemma world_wf_finish w g :
  world_wf w → world_wf (set_goroutines w (<[g := None]> (goroutines w))).
Proof.
  intros [H1 H2 H3 H4 H5 H6 H7]. constructor; try done.
  intros g' c sp Hg. cbn in Hg.
  apply list_lookup_insert_Some in Hg as [(_ & [=] & _)|[_ Hg]]. by eapply H7.
Qed.

Lemma world_wf_unregister c sp k w :
  world_wf w → Client.Conn c = Some k →
  (∀ p id c', member w p id c' → Client.Conn c' = Some k → p = sp ∧ id = Client.ID c) →
  world_wf (unregister c sp (close_conn (Client.Conn c) w)).
Proof.
  intros [H1 H2 H3 H4 H5 H6 H7] Hk Hown. rewrite Hk. cbn [close_conn].
  assert (Hmem : ∀ q id c', member (unregister c sp (set_conns w (Close k (conns w)))) q id c'
                  → member w q id c' ∧ ¬ (q = sp ∧ id = Client.ID c)).
  { intros q id c' Hm. by apply member_unregister in Hm. }
  constructor.
  - intros sid q Hq. change (registered w sid q) in Hq.
    destruct (H1 _ _ Hq) as (s & Hs & Hid). cbn.
    rewrite list_lookup_alter. case_decide; [|eauto]. subst q. rewrite Hs. eauto.
  - intros q id c' [Hm _]%Hmem. eauto.
  - intros q s' id c' Hs' Hc. cbn in Hs'.
    apply heap_alter_lookup in Hs' as (s & Hs & ->). case_decide as Hq; [|eauto].
    cbn in Hc |- *. apply lookup_delete_Some in Hc as [_ Hc]. eauto.
  - intros q id c' [Hm _]%Hmem. cbn. unfold Close. rewrite length_alter. eauto.
  - intros q1 id1 c1 q2 id2 c2 k' [Hm1 _]%Hmem [Hm2 _]%Hmem. eauto.
  - intros sid q id c' k' Hq [Hm Hne]%Hmem Hk'. change (registered w sid q) in Hq.
    unfold is_open; cbn. unfold Close. destruct (decide (k = k')) as [<-|Hkk].
    + destruct Hne. eauto.
    + rewrite list_lookup_alter_ne by done. by eapply H6.
  - intros g c' sp' Hg. cbn in Hg |- *. unfold Close. rewrite !length_alter.
    destruct (H7 _ _ _ Hg) as (Hlt & Hid & k' & Hk' & Hklt & Hown').
    split; [done|]. split; [done|]. exists k'. split; [done|]. split; [done|].
    intros q id c'' [Hm _]%Hmem. eauto.
Qed.

Lemma world_wf_leave c sp k w :
  world_wf w → Client.Conn c = Some k →
  (∀ p id c', member w p id c' → Client.Conn c' = Some k → p = sp ∧ id = Client.ID c) →
  world_wf (leave c sp w).
Proof.
  intros Hwf Hk Hown. unfold leave. cbn zeta.
  pose proof (world_wf_unregister c sp k w Hwf Hk Hown) as Hwf1.
  destruct (heap _ !! sp); [|done]. by apply world_wf_broadcast.
Qed.

Lemma world_wf_step op w : world_wf w → world_wf (step op w).
Proof.
  intros Hwf. destruct op as [req rand now|id|sessionID upgrade_ok rand|g message|g]; cbn.
  - by apply world_wf_createSession.
  - by apply world_wf_deleteSession.
  - by apply world_wf_handleWebSocket.
  - destruct (goroutines w !! g) as [[[c sp]|]|]; try done. by apply world_wf_relay.
  - destruct (goroutines w !! g) as [[[c sp]|]|] eqn:Hg; try done.
    destruct (wf_goroutine _ Hwf _ _ _ Hg) as (_ & _ & k & Hk & _ & Hown).
    apply (world_wf_leave c sp k); [by apply world_wf_finish|done|done].
Qed.

Lemma world_wf_run ops w : world_wf w → world_wf (run ops w).
Proof.
  revert w. induction ops as [|op ops IH]; intros w Hwf; [done|].
  apply IH. by apply world_wf_step.
Qed.

(** ** What one broadcast delivers *)

Lemma broadcast_lookup w sessionID p s message ex k :
  world_wf w → registered w sessionID p → heap w !! p = Some s →
  conns (broadcastToSession sessionID message ex w) !! k
  = if decide (k ∈ targets ex (map_to_list (Session.Clients s)))
    then deliver message <$> conns w !! k
    else conns w !! k.
Proof.
  intros Hwf Hr Hs. rewrite (broadcast_conns _ _ _ _ _ _ Hr Hs).
  case_decide as Hk.
  - apply write_all_once; [|done]. apply NoDup_session_targets.
    intros id1 c1 id2 c2 k' Hc1 Hc2 Hk1 Hk2.
    by destruct (wf_inj _ Hwf p id1 c1 p id2 c2 k'); unfold member; eauto.
  - by apply write_all_notin.
Qed.

Lemma outbox_delivered w w' k message :
  conns w' !! k = deliver message <$> conns w !! k → is_open w k →
  outbox w' k = outbox w k ++ [message].
Proof.
  unfold is_open, outbox. intros -> Ho.
  destruct (conns w !! k) as [c|]; [|done]. cbn in *. injection Ho as Ho.
  unfold deliver. by rewrite Ho.
Qed.

Lemma outbox_same w w' k : conns w' !! k = conns w !! k → outbox w' k = outbox w k.
Proof. unfold outbox. by intros ->. Qed.

Lemma broadcast_delivers w sessionID p s message ex :
  world_wf w → registered w sessionID p → heap w !! p = Some s →
  (∀ id c, Session.Clients s !! id = Some c → id ≠ ex →
     ∃ k, Client.Conn c = Some k ∧
          outbox (broadcastToSession sessionID message ex w) k
          = outbox w k ++ [message])
  ∧ (∀ k, (∀ id c, Session.Clients s !! id = Some c → Client.Conn c = Some k → id = ex) →
       conns (broadcastToSession sessionID message ex w) !! k = conns w !! k).
Proof.
  intros Hwf Hr Hs. split.
  - intros id c Hc Hne.
    destruct (wf_conn _ Hwf p id c) as (k & Hk & _); [by exists s|].
    exists k. split; [done|]. apply outbox_delivered.
    + rewrite (broadcast_lookup _ _ _ _ _ _ _ Hwf Hr Hs). rewrite decide_True; [done|].
      apply elem_of_session_targets. eauto.
    + eapply (wf_open _ Hwf); [done| |done]. by exists s.
  - intros k Hk. rewrite (broadcast_lookup _ _ _ _ _ _ _ Hwf Hr Hs).
    rewrite decide_False; [done|].
    intros (id & c & Hc & Hne & Hkc)%elem_of_session_targets. eauto.
Qed.


(** ** The registry invariant *)

Lemma createSession_valid req name rand now w :
  ShouldBindJSON req = inr name →
  createSession req rand now w
  = (created name rand now w,
     {| status := StatusCreated;
        body := BodySession {| Session.ID := generateID rand; Session.Name := name;
                               Session.CreatedAt := now; Session.Clients := ∅ |} |}).
Proof. intros Hreq. unfold createSession. by rewrite Hreq. Qed.

Lemma createSession_invalid req err rand now w :
  ShouldBindJSON req = inl err →
  createSession req rand now w
  = (w, {| status := StatusBadRequest; body := BodyError err |}).
Proof. intros Hreq. unfold createSession. by rewrite Hreq. Qed.

Lemma member_created name rand now w q id c :
  member (created name rand now w) q id c ↔ member w q id c.
Proof.
  rewrite (member_snoc w (created name rand now w)) by done. cbn. split; [|by left].
  intros [?|[_ H]]; [done|]. by rewrite lookup_empty in H.
Qed.

Lemma registered_created name rand now w sessionID p :
  registered (created name rand now w) sessionID p ↔
  (sessionID = generateID rand ∧ p = length (heap w))
  ∨ (sessionID ≠ generateID rand ∧ registered w sessionID p).
Proof.
  unfold registered, created; cbn. rewrite lookup_insert_Some. naive_solver.
Qed.

Lemma member_valid w q id c : member w q id c → q < length (heap w).
Proof. intros (s & Hs & _). by eapply lookup_lt_Some. Qed.

Lemma ids_wf_created name rand now w used :
  ids_wf w used →
  InMemoryStore.Sessions (store w) !! generateID rand = None →
  ids_wf (created name rand now w) used.
Proof.
  intros [I1 I2 I3 I4] Hfresh. constructor.
  - intros id c Hc. destruct (I1 id c Hc) as (p & Hr & Hm). exists p.
    rewrite registered_created, member_created. split; [|done]. right.
    split; [|done]. intros Heq. unfold registered in Hr. congruence.
  - intros sessionID p id c [[-> ->]|[_ Hr]]%registered_created Hm%member_created.
    + apply member_valid in Hm. lia.
    + by eapply I2.
  - intros p id c Hm%member_created. eauto.
  - intros g c sp Hg. destruct (I4 g c sp Hg) as [Hu Hown]. split; [done|].
    intros q c' Hm%member_created. eauto.
Qed.

Lemma registered_inj w sessionID1 sessionID2 p :
  world_wf w → registered w sessionID1 p → registered w sessionID2 p →
  sessionID1 = sessionID2.
Proof.
  intros Hwf H1 H2.
  destruct (wf_registered _ Hwf _ _ H1) as (s1 & Hs1 & <-).
  destruct (wf_registered _ Hwf _ _ H2) as (s2 & Hs2 & <-). congruence.
Qed.

Lemma ids_wf_deleted id w p s used :
  world_wf w → ids_wf w used → registered w id p → heap w !! p = Some s →
  ids_wf (deleted id s w) used.
Proof.
  intros Hwf [I1 I2 I3 I4] Hr Hs. constructor; [| |done|done].
  - intros i c Hc. cbn in Hc. rewrite delete_all_lookup in Hc.
    case_decide as Hi; [done|]. destruct (I1 i c Hc) as (q & Hq & Hm).
    exists q. split; [|done]. unfold registered in *; cbn.
    apply lookup_delete_Some. split; [|done]. intros Heq.
    rewrite <- Heq in Hq. assert (q = p) as -> by congruence.
    destruct Hm as (s' & Hs' & Hc'). assert (s' = s) as -> by congruence.
    apply Hi, elem_of_member_ids. exists i, c. split; [done|].
    by destruct (wf_key _ Hwf p i c); [exists s|].
  - intros sessionID q i c Hq Hm. unfold registered in Hq; cbn in Hq.
    apply lookup_delete_Some in Hq as [Hne Hq].
    change (member w q i c) in Hm. cbn. rewrite delete_all_lookup.
    rewrite decide_False; [by eapply I2|].
    intros (id' & c' & Hc' & Hid')%elem_of_member_ids.
    assert (member w p id' c') as Hm' by (by exists s).
    destruct (wf_key _ Hwf _ _ _ Hm') as [Hkey _].
    assert (id' = i) as -> by congruence.
    pose proof (I2 _ _ _ _ Hr Hm') as Hc1. pose proof (I2 _ _ _ _ Hq Hm) as Hc2.
    assert (c' = c) as -> by congruence.
    destruct (wf_conn _ Hwf _ _ _ Hm) as (k & Hk & _).
    destruct (wf_inj _ Hwf q i c p i c k) as [-> _]; try done.
    apply Hne. by eapply registered_inj.
Qed.

Lemma ids_wf_skeleton w w' used :
  store w' = store w → heap w' = heap w → goroutines w' = goroutines w →
  ids_wf w used → ids_wf w' used.
Proof.
  intros Hst Hh Hg [I1 I2 I3 I4].
  constructor; unfold registered, member in *; rewrite ?Hst, ?Hh, ?Hg; done.
Qed.

Lemma member_joined sessionID rand p w q id c :
  p < length (heap w) →
  member (spawn (new_client sessionID rand (length (conns w))) p
            (register (new_client sessionID rand (length (conns w))) p (Upgrade w).1))
         q id c ↔
  (q = p ∧ id = generateID rand ∧ c = new_client sessionID rand (length (conns w)))
  ∨ (member w q id c ∧ ¬ (q = p ∧ id = generateID rand)).
Proof.
  intros Hp. set (client := new_client sessionID rand (length (conns w))).
  change (member (register client p (Upgrade w).1) q id c ↔
    (q = p ∧ id = Client.ID client ∧ c = client)
    ∨ (member w q id c ∧ ¬ (q = p ∧ id = Client.ID client))).
  rewrite member_register. change (heap (Upgrade w).1) with (heap w).
  change (member (Upgrade w).1 q id c) with (member w q id c). naive_solver.
Qed.

Lemma ids_wf_join sessionID rand p w used :
  world_wf w → ids_wf w used → registered w sessionID p →
  generateID rand ∉ used →
  ids_wf (spawn (new_client sessionID rand (length (conns w))) p
            (register (new_client sessionID rand (length (conns w))) p (Upgrade w).1))
         (generateID rand :: used).
Proof.
  intros Hwf [I1 I2 I3 I4] Hr Hfresh.
  destruct (wf_registered _ Hwf _ _ Hr) as (s & Hs & Hid).
  apply lookup_lt_Some in Hs as Hp.
  pose proof (λ q id c, member_joined sessionID rand p w q id c Hp) as Hmem.
  set (client := new_client sessionID rand (length (conns w))) in *.
  constructor.
  - intros id c Hc. cbn in Hc. apply lookup_insert_Some in Hc as [[<- <-]|[Hne Hc]].
    + exists p. split; [done|]. apply Hmem. by left.
    + destruct (I1 id c Hc) as (q & Hq & Hm). exists q. split; [done|].
      apply Hmem. right. split; [done|]. naive_solver.
  - intros sid q id c Hq Hm. change (registered w sid q) in Hq.
    apply Hmem in Hm as [(-> & -> & ->)|[Hm _]]; cbn.
    + by rewrite lookup_insert_eq.
    + rewrite lookup_insert_ne; [by eapply I2|]. intros <-. apply Hfresh. eauto.
  - intros q id c [(-> & -> & ->)|[Hm _]]%Hmem.
    + apply list_elem_of_here.
    + apply list_elem_of_further. eauto.
  - intros g c sp Hg. cbn in Hg. apply lookup_app_Some in Hg as [Hg|[_ Hg]].
    + destruct (I4 g c sp Hg) as [Hu Hown]. split; [by apply list_elem_of_further|].
      intros q c' [(-> & Heq & ->)|[Hm _]]%Hmem; [|eauto].
      rewrite Heq in Hu. done.
    + apply list_lookup_singleton_Some in Hg as [_ [= <- <-]].
      split; [apply list_elem_of_here|].
      intros q c' [(-> & _ & _)|[Hm _]]%Hmem; [done|].
      destruct Hfresh. eauto.
Qed.

Lemma ids_wf_handleWebSocket sessionID rand p w used :
  world_wf w → ids_wf w used → registered w sessionID p →
  generateID rand ∉ used →
  ids_wf (handleWebSocket sessionID true rand w).1 (generateID rand :: used).
Proof.
  intros Hwf Hids Hr Hfresh. rewrite (handleWebSocket_joined _ _ _ _ Hr). cbn zeta.
  eapply ids_wf_skeleton; [..|by apply (ids_wf_join sessionID rand p)]; cbn.
  - by rewrite broadcast_store.
  - by rewrite broadcast_heap.
  - by rewrite broadcast_goroutines.
Qed.

Lemma ids_wf_finish w g used :
  ids_wf w used → ids_wf (set_goroutines w (<[g := None]> (goroutines w))) used.
Proof.
  intros [I1 I2 I3 I4]. constructor; try done.
  intros g' c sp Hg. cbn in Hg.
  apply list_lookup_insert_Some in Hg as [(_ & [=] & _)|[_ Hg]]. by eapply I4.
Qed.

Lemma ids_wf_leave c sp w used :
  ids_wf w used → (∀ q c', member w q (Client.ID c) c' → q = sp) →
  ids_wf (leave c sp w) used.
Proof.
  intros [I1 I2 I3 I4] Hown.
  apply (ids_wf_skeleton (unregister c sp (close_conn (Client.Conn c) w))).
  { unfold leave. cbn zeta. destruct (heap _ !! sp); [|done]. apply broadcast_store. }
  { unfold leave. cbn zeta. destruct (heap _ !! sp); [|done]. apply broadcast_heap. }
  { unfold leave. cbn zeta. destruct (heap _ !! sp); [|done]. apply broadcast_goroutines. }
  assert (Hmem : ∀ q id c', member (unregister c sp (close_conn (Client.Conn c) w)) q id c'
                  ↔ member w q id c' ∧ ¬ (q = sp ∧ id = Client.ID c)).
  { intros q id c'. rewrite member_unregister. by destruct (Client.Conn c). }
  assert (Hst : store (close_conn (Client.Conn c) w) = store w)
    by (by destruct (Client.Conn c)).
  assert (Hg : goroutines (close_conn (Client.Conn c) w) = goroutines w)
    by (by destruct (Client.Conn c)).
  constructor.
  - intros id c' Hc. cbn in Hc. rewrite Hst in Hc.
    apply lookup_delete_Some in Hc as [Hne Hc].
    destruct (I1 id c' Hc) as (q & Hq & Hm). exists q. split.
    + unfold registered in *. cbn. by rewrite Hst.
    + apply Hmem. split; [done|]. naive_solver.
  - intros sid q id c' Hq [Hm Hne]%Hmem. unfold registered in Hq; cbn in Hq |- *.
    rewrite Hst in *. rewrite lookup_delete_ne; [by eapply I2|].
    intros <-. apply Hne. split; [|done]. eauto.
  - intros q id c' [Hm _]%Hmem. eauto.
  - intros g c' sp' Hg'. cbn in Hg'. rewrite Hg in Hg'.
    destruct (I4 g c' sp' Hg') as [Hu Hown']. split; [done|].
    intros q c'' [Hm _]%Hmem. eauto.
Qed.

Lemma ids_wf_new : ids_wf NewWorld [].
Proof.
  constructor; unfold registered, member; cbn.
  - intros ?? H. by rewrite lookup_empty in H.
  - intros ???? H. by rewrite lookup_empty in H.
  - intros ??? (? & H & _). by rewrite lookup_nil in H.
  - intros ??? H. by rewrite lookup_nil in H.
Qed.

Lemma ids_wf_step op w used :
  world_wf w → ids_wf w used → fresh_step op w used = true →
  ids_wf (step op w) (minted op w ++ used).
Proof.
  intros Hwf Hids Hfresh.
  destruct op as [req rand now|id|sessionID upgrade_ok rand|g message|g]; cbn in *.
  - destruct (ShouldBindJSON req) as [err|name] eqn:Hreq.
    + by rewrite (createSession_invalid _ _ _ _ _ Hreq).
    + rewrite (createSession_valid _ _ _ _ _ Hreq). cbn.
      apply ids_wf_created; [done|]. by apply bool_decide_eq_true in Hfresh.
  - destruct (InMemoryStore.Sessions (store w) !! id) as [p|] eqn:Hr.
    + destruct (wf_registered _ Hwf _ _ Hr) as (s & Hs & _).
      rewrite (deleteSession_registered _ _ _ _ Hr Hs). by eapply ids_wf_deleted.
    + by rewrite deleteSession_unregistered.
  - destruct upgrade_ok.
    + destruct (InMemoryStore.Sessions (store w) !! sessionID) as [p|] eqn:Hr.
      * apply bool_decide_eq_true in Hfresh. by eapply ids_wf_handleWebSocket.
      * by rewrite handleWebSocket_not_found.
    + unfold handleWebSocket. by destruct (InMemoryStore.Sessions (store w) !! sessionID).
  - destruct (goroutines w !! g) as [[[c sp]|]|]; try done.
    unfold relay. destruct (heap w !! sp); [|done].
    eapply ids_wf_skeleton; [..|done].
    + apply broadcast_store.
    + apply broadcast_heap.
    + apply broadcast_goroutines.
  - destruct (goroutines w !! g) as [[[c sp]|]|] eqn:Hg; try done.
    apply ids_wf_leave; [by apply ids_wf_finish|].
    destruct (iw_goroutine _ _ Hids _ _ _ Hg) as [_ Hown]. exact Hown.
Qed.

Lemma ids_wf_run ops w used :
  world_wf w → ids_wf w used → fresh_run ops w used = true →
  ∃ used', ids_wf (run ops w) used'.
Proof.
  revert w used. induction ops as [|op ops IH]; intros w used Hwf Hids Hfresh.
  - by exists used.
  - cbn in Hfresh. apply andb_true_iff in Hfresh as [Hstep Hrun].
    apply (IH (step op w) (minted op w ++ used)); [|by apply ids_wf_step|done].
    by apply world_wf_step.
Qed.

Lemma ids_wf_consistent w used :
  world_wf w → ids_wf w used → registry_consistent w.
Proof.
  intros Hwf [I1 I2 I3 I4]. split; [|done].
  intros sessionID p s Hr Hs. apply set_eq. intros id.
  rewrite !elem_of_dom. unfold index_of. split.
  - intros [c Hc]. exists c. apply map_lookup_filter_Some. split.
    + eapply I2; [done|]. by exists s.
    + cbn. by eapply wf_session.
  - intros [c [Hc Hsid]%map_lookup_filter_Some]. cbn in Hsid.
    destruct (I1 id c Hc) as (q & Hq & (s' & Hs' & Hc')).
    destruct (wf_registered _ Hwf _ _ Hr) as (s0 & Hs0 & Hid0).
    assert (s0 = s) as -> by congruence.
    rewrite Hsid, Hid0 in Hq. unfold registered in *.
    assert (q = p) as -> by congruence. assert (s' = s) as -> by congruence.
    by exists c.
Qed.

Lemma leave_sessions c sp w :
  InMemoryStore.Sessions (store (leave c sp w)) = InMemoryStore.Sessions (store w).
Proof.
  unfold leave. cbn zeta.
  destruct (heap _ !! sp); rewrite ?broadcast_store; cbn; by destruct (Client.Conn c).
Qed.

Lemma relay_store c sp message w : store (relay c sp message w) = store w.
Proof. unfold relay. destruct (heap w !! sp); [apply broadcast_store|done]. Qed.

Lemma fresh_run_without_create ops w used :
  InMemoryStore.Sessions (store w) = ∅ →
  forallb creates_nothing ops = true →
  fresh_run ops w used = true.
Proof.
  revert w used. induction ops as [|op ops IH]; intros w used Hempty Hops; [done|].
  cbn in Hops. apply andb_true_iff in Hops as [Hop Hops]. cbn [fresh_run].
  apply andb_true_iff. split.
  - destruct op as [| |sessionID [] rand| |]; try done. cbn.
    by rewrite Hempty, lookup_empty.
  - apply IH; [|done].
    destruct op as [|id|sessionID upgrade_ok rand|g message|g]; try done; cbn.
    + rewrite deleteSession_unregistered; [done|]. by rewrite Hempty, lookup_empty.
    + rewrite handleWebSocket_not_found; [done|]. by rewrite Hempty, lookup_empty.
    + destruct (goroutines w !! g) as [[[c sp]|]|]; try done. by rewrite relay_store.
    + destruct (goroutines w !! g) as [[[c sp]|]|]; try done. by rewrite leave_sessions.
Qed.

Lemma two_sessions_consistent : registry_consistent two_sessions.
Proof.
  destruct (ids_wf_run two_sessions_ops NewWorld [] world_wf_new ids_wf_new)
    as [used Hids]; [vm_compute; reflexivity|].
  eapply ids_wf_consistent; [|exact Hids]. apply world_wf_run, world_wf_new.
Qed.

(** ** deleteSession *)

Lemma member_ids_keys w p s id :
  world_wf w → heap w !! p = Some s →
  id ∈ member_ids (map_to_list (Session.Clients s)) ↔ id ∈ dom (Session.Clients s).
Proof.
  intros Hwf Hs. rewrite elem_of_member_ids, elem_of_dom. split.
  - intros (id' & c & Hc & Hid).
    destruct (wf_key _ Hwf p id' c) as [Hkey _]; [by exists s|].
    assert (id' = id) as -> by congruence. eauto.
  - intros [c Hc]. exists id, c. split; [done|].
    by destruct (wf_key _ Hwf p id c); [exists s|].
Qed.

(** deleteSession on a registered id, in any well-formed world. *)
Lemma deleteSession_effect w id p s :
  world_wf w → registered w id p → heap w !! p = Some s →
  let w' := (deleteSession id w).1 in
  status (deleteSession id w).2 = StatusNoContent
  ∧ InMemoryStore.Sessions (store w') = delete id (InMemoryStore.Sessions (store w))
  ∧ InMemoryStore.Sessions (store w') !! id = None
  ∧ (∀ cid c, Session.Clients s !! cid = Some c →
       (∃ k, Client.Conn c = Some k ∧ is_closed w' k)
       ∧ InMemoryStore.Clients (store w') !! cid = None)
  ∧ (registry_consistent w → index_of w' id = ∅).
Proof.
  intros Hwf Hr Hs w'. subst w'.
  rewrite (deleteSession_registered _ _ _ _ Hr Hs). cbn [fst snd].
  split; [done|]. split; [done|]. split; [apply lookup_delete_eq|]. split.
  - intros cid c Hc. split.
    + destruct (wf_conn _ Hwf p cid c) as (k & Hk & Hlt); [by exists s|].
      exists k. split; [done|]. unfold is_closed, deleted; cbn.
      rewrite close_all_in by (apply elem_of_member_conns; eauto).
      apply lookup_lt_is_Some_2 in Hlt as [cn ->]. done.
    + cbn. rewrite delete_all_lookup. rewrite decide_True; [done|].
      apply (member_ids_keys w p s cid Hwf Hs), elem_of_dom. eauto.
  - intros [Hcons _]. apply map_empty. intros cid. apply map_lookup_filter_None. right.
    intros c Hc Hsid. cbn in Hc, Hsid. rewrite delete_all_lookup in Hc.
    case_decide as Hin; [done|]. apply Hin.
    apply (member_ids_keys w p s cid Hwf Hs). rewrite (Hcons id p s Hr Hs).
    destruct (wf_registered _ Hwf _ _ Hr) as (s' & Hs' & Hid).
    assert (s' = s) as -> by congruence. rewrite Hid.
    apply elem_of_dom. exists c. by apply map_lookup_filter_Some.
Qed.

(** What deleteSession on a registered id leaves alone: every other
    entry of the sessions map, every session object, and every entry of
    the global index whose key is not a key of the deleted session's
    participant map.  When the registry is consistent, these are all the
    entries filed under another session id. *)
Lemma deleteSession_frame w id p s :
  world_wf w → registered w id p → heap w !! p = Some s →
  let w' := (deleteSession id w).1 in
  (∀ sid, sid ≠ id →
     InMemoryStore.Sessions (store w') !! sid = InMemoryStore.Sessions (store w) !! sid)
  ∧ heap w' = heap w
  ∧ (∀ cid, cid ∉ dom (Session.Clients s) →
       InMemoryStore.Clients (store w') !! cid = InMemoryStore.Clients (store w) !! cid)
  ∧ (∀ cid c, InMemoryStore.Clients (store w') !! cid = Some c →
       InMemoryStore.Clients (store w) !! cid = Some c)
  ∧ (registry_consistent w →
     ∀ cid c, InMemoryStore.Clients (store w) !! cid = Some c →
       Client.SessionID c ≠ id → InMemoryStore.Clients (store w') !! cid = Some c).
Proof.
  intros Hwf Hr Hs w'. subst w'.
  rewrite (deleteSession_registered _ _ _ _ Hr Hs). cbn [fst].
  assert (Hkeep : ∀ cid, cid ∉ dom (Session.Clients s) →
            InMemoryStore.Clients (store (deleted id s w)) !! cid
            = InMemoryStore.Clients (store w) !! cid).
  { intros cid Hcid. cbn. rewrite delete_all_lookup. rewrite decide_False; [done|].
    by intros Hin%(member_ids_keys w p s cid Hwf Hs). }
  split; [|split; [done|split; [done|split]]].
  - intros sid Hne. cbn. by rewrite lookup_delete_ne.
  - intros cid c Hc. cbn in Hc. rewrite delete_all_lookup in Hc.
    by case_decide.
  - intros [Hcons _] cid c Hc Hsid. rewrite Hkeep; [done|].
    rewrite (Hcons id p s Hr Hs). intros Hin.
    apply elem_of_dom in Hin as [c' [Hc' Hsid']%map_lookup_filter_Some].
    cbn in Hsid'. destruct (wf_registered _ Hwf _ _ Hr) as (s' & Hs' & Hid).
    assert (s' = s) as -> by congruence. congruence.
Qed.

(** ** The deferred cleanup *)

Lemma leave_unfold c sp s w :
  heap w !! sp = Some s →
  leave c sp w
  = broadcastToSession (Session.ID s) (client_left (Client.ID c)) EmptyString
      (unregister c sp (close_conn (Client.Conn c) w)).
Proof.
  intros Hs. unfold leave. cbn zeta.
  assert (heap (unregister c sp (close_conn (Client.Conn c) w)) !! sp
          = Some (remove_client (Client.ID c) s)) as ->; [|done].
  cbn. rewrite list_lookup_alter_eq.
  assert (heap (close_conn (Client.Conn c) w) = heap w) as ->
    by (by destruct (Client.Conn c)).
  by rewrite Hs.
Qed.

Lemma close_conn_store conn w : store (close_conn conn w) = store w.
Proof. by destruct conn. Qed.

Lemma close_conn_heap conn w : heap (close_conn conn w) = heap w.
Proof. by destruct conn. Qed.

Lemma leave_store c sp w :
  store (leave c sp w)
  = {| InMemoryStore.Sessions := InMemoryStore.Sessions (store w);
       InMemoryStore.Clients := delete (Client.ID c) (InMemoryStore.Clients (store w)) |}.
Proof.
  unfold leave. cbn zeta.
  destruct (heap _ !! sp); rewrite ?broadcast_store; cbn; by rewrite close_conn_store.
Qed.

Lemma leave_heap c sp w :
  heap (leave c sp w) = alter (remove_client (Client.ID c)) sp (heap w).
Proof.
  unfold leave. cbn zeta.
  destruct (heap _ !! sp); rewrite ?broadcast_heap; cbn; by rewrite close_conn_heap.
Qed.

Lemma leave_closed c sp k w :
  Client.Conn c = Some k → k < length (conns w) → is_closed (leave c sp w) k.
Proof.
  intros Hk Hlt. unfold is_closed, leave. cbn zeta.
  assert (closed <$> conns (unregister c sp (close_conn (Client.Conn c) w)) !! k
          = Some true) as Hclosed.
  { rewrite Hk. cbn. unfold Close. rewrite list_lookup_alter_eq.
    by apply lookup_lt_is_Some_2 in Hlt as [cn ->]. }
  destruct (heap _ !! sp); [|done]. by rewrite broadcast_closed.
Qed.

Lemma leave_silent c sp s w :
  heap w !! sp = Some s →
  InMemoryStore.Sessions (store w) !! Session.ID s = None →
  conns (leave c sp w) = conns (close_conn (Client.Conn c) w).
Proof.
  intros Hs Hr. rewrite (leave_unfold _ _ _ _ Hs).
  rewrite broadcast_unregistered; [done|]. cbn. by rewrite close_conn_store.
Qed.

(** Who receives [client_left]: every client stored in the session
    registered under the id of the goroutine's session, except the entry
    that the cleanup has just deleted. *)
Lemma leave_delivers w c sp s k q s' :
  world_wf w → heap w !! sp = Some s → Client.Conn c = Some k →
  (∀ p id c', member w p id c' → Client.Conn c' = Some k → p = sp ∧ id = Client.ID c) →
  registered w (Session.ID s) q → heap w !! q = Some s' →
  ∀ cid c', Session.Clients s' !! cid = Some c' → ¬ (q = sp ∧ cid = Client.ID c) →
    ∃ j, Client.Conn c' = Some j
         ∧ outbox (leave c sp w) j = outbox w j ++ [client_left (Client.ID c)].
Proof.
  intros Hwf Hs Hk Hown Hr Hs' cid c' Hc' Hne.
  pose proof (world_wf_unregister c sp k w Hwf Hk Hown) as Hwf1.
  rewrite (leave_unfold _ _ _ _ Hs).
  set (w1 := unregister c sp (close_conn (Client.Conn c) w)) in *.
  assert (member w1 q cid c') as (s1 & Hs1 & Hc1).
  { apply member_unregister. split; [|done].
    unfold member. rewrite close_conn_heap. eauto. }
  assert (registered w1 (Session.ID s) q) as Hr1.
  { unfold registered, w1. cbn. by rewrite close_conn_store. }
  destruct (broadcast_delivers w1 (Session.ID s) q s1
              (client_left (Client.ID c)) EmptyString Hwf1 Hr1 Hs1) as [Hsend _].
  destruct (Hsend cid c' Hc1) as (j & Hj & Hout).
  { by destruct (wf_key _ Hwf q cid c'); [exists s'|]. }
  exists j. split; [done|]. rewrite Hout. f_equal. apply outbox_same.
  unfold w1. rewrite Hk. cbn. unfold Close. apply list_lookup_alter_ne.
  intros <-. apply Hne. apply (Hown q cid c'); [by exists s'|done].
Qed.

Lemma relay_skeleton c sp message w :
  store (relay c sp message w) = store w ∧ heap (relay c sp message w) = heap w
  ∧ goroutines (relay c sp message w) = goroutines w
  ∧ length (conns (relay c sp message w)) = length (conns w).
Proof.
  unfold relay. destruct (heap w !! sp); [|done].
  by rewrite broadcast_store, broadcast_heap, broadcast_goroutines,
    broadcast_conns_length.
Qed.

Lemma relay_loop_skeleton c sp inbound w :
  let w1 := foldl (λ acc message, relay c sp message acc) w inbound in
  store w1 = store w ∧ heap w1 = heap w ∧ goroutines w1 = goroutines w
  ∧ length (conns w1) = length (conns w) ∧ (world_wf w → world_wf w1).
Proof.
  revert w. induction inbound as [|message inbound IH]; intros w; [done|].
  cbn [foldl]. cbn zeta.
  destruct (IH (relay c sp message w)) as (Hst & Hh & Hg & Hlen & Hwf).
  destruct (relay_skeleton c sp message w) as (Hst' & Hh' & Hg' & Hlen').
  rewrite Hst, Hh, Hg, Hlen. split; [done|]. split; [done|]. split; [done|].
  split; [done|]. intros Hw. apply Hwf. by apply world_wf_relay.
Qed.

(** The goroutine of a connection, from any well-formed world in which
    it is live. *)
Lemma handleMessages_effect w g c sp s inbound :
  world_wf w → goroutines w !! g = Some (Some (c, sp)) → heap w !! sp = Some s →
  let w1 := foldl (λ acc message, relay c sp message acc) w inbound in
  let w' := handleMessages c sp inbound w in
  InMemoryStore.Sessions (store w') = InMemoryStore.Sessions (store w)
  ∧ InMemoryStore.Clients (store w')
    = delete (Client.ID c) (InMemoryStore.Clients (store w))
  ∧ heap w' !! sp = Some (remove_client (Client.ID c) s)
  ∧ (∃ k, Client.Conn c = Some k ∧ is_closed w' k)
  ∧ (registered w (Session.ID s) sp →
     ∀ cid c', Session.Clients s !! cid = Some c' → cid ≠ Client.ID c →
       ∃ j, Client.Conn c' = Some j
            ∧ outbox w' j = outbox w1 j ++ [client_left (Client.ID c)]).
Proof.
  intros Hwf Hg Hs w1 w'. subst w'. unfold handleMessages. fold w1.
  destruct (relay_loop_skeleton c sp inbound w) as (Hst & Hh & Hgs & Hlen & Hwf1).
  fold w1 in Hst, Hh, Hgs, Hlen, Hwf1. specialize (Hwf1 Hwf).
  rewrite <- Hgs in Hg. rewrite <- Hh in Hs.
  destruct (wf_goroutine _ Hwf1 _ _ _ Hg) as (_ & _ & k & Hk & Hlt & Hown).
  rewrite leave_store, leave_heap, Hst. cbn.
  split; [done|]. split; [done|]. split.
  { rewrite list_lookup_alter_eq. by rewrite Hs. }
  split.
  { exists k. split; [done|]. by apply leave_closed. }
  intros Hr cid c' Hc' Hne.
  assert (registered w1 (Session.ID s) sp) as Hr1.
  { unfold registered. by rewrite Hst. }
  apply (leave_delivers w1 c sp s k sp s Hwf1 Hs Hk Hown Hr1 Hs cid c' Hc').
  naive_solver.
Qed.

(** ** handleWebSocket *)

Lemma world_wf_unspawn c p w : world_wf (spawn c p w) → world_wf w.
Proof.
  intros [H1 H2 H3 H4 H5 H6 H7]. constructor; try done.
  intros g c' sp Hg. apply (H7 g). cbn. by apply lookup_app_l_Some.
Qed.

(** A join into a registered session, in any well-formed world. *)
Lemma handleWebSocket_effect w sessionID p s rand :
  world_wf w → registered w sessionID p → heap w !! p = Some s →
  let w' := (handleWebSocket sessionID true rand w).1 in
  let id := generateID rand in
  let conn := length (conns w) in
  (handleWebSocket sessionID true rand w).2
  = WsJoined (new_client sessionID rand conn) p
  ∧ InMemoryStore.Clients (store w') !! id = Some (new_client sessionID rand conn)
  ∧ member w' p id (new_client sessionID rand conn)
  ∧ outbox w' conn = [session_joined sessionID id]
  ∧ (∀ cid c, Session.Clients s !! cid = Some c → cid ≠ id →
       ∃ j, Client.Conn c = Some j ∧ outbox w' j = outbox w j ++ [client_joined id])
  ∧ (∀ j, j < conn →
       (∀ cid c, Session.Clients s !! cid = Some c → Client.Conn c = Some j → cid = id) →
       outbox w' j = outbox w j)
  ∧ (∀ q cid c j, q ≠ p → member w q cid c → Client.Conn c = Some j →
       outbox w' j = outbox w j).
Proof.
  intros Hwf Hr Hs w' id conn. subst w'.
  rewrite (handleWebSocket_joined _ _ _ _ Hr). cbn zeta. cbn [fst snd].
  fold id conn. set (client := new_client sessionID rand conn).
  set (w1 := register client p (Upgrade w).1).
  set (w2 := set_conns w1 (sendMessage (Some conn) (session_joined sessionID id) (conns w1))).
  assert (world_wf w2) as Hwf2.
  { apply (world_wf_skeleton w1); try done.
    - cbn. by rewrite WriteJSON_length.
    - intros j. cbn. apply WriteJSON_closed.
    - apply (world_wf_unspawn client p). by apply world_wf_join. }
  assert (registered w2 sessionID p) as Hr2 by done.
  assert (heap w2 !! p = Some (add_client client s)) as Hs2.
  { cbn. rewrite list_lookup_alter_eq. by rewrite Hs. }
  destruct (broadcast_delivers w2 sessionID p (add_client client s)
              (client_joined id) id Hwf2 Hr2 Hs2) as [Hsend Hrest].
  assert (Hold : ∀ cid c j, Session.Clients s !! cid = Some c →
                 Client.Conn c = Some j → j < conn).
  { intros cid c j Hc Hj. destruct (wf_conn _ Hwf p cid c) as (j' & Hj' & Hlt);
      [by exists s|]. unfold conn. congruence. }
  assert (Hw2 : ∀ j, j < conn → conns w2 !! j = conns w !! j).
  { intros j Hlt. cbn. unfold WriteJSON. rewrite list_lookup_alter_ne by (unfold conn in *; lia).
    by rewrite lookup_app_l. }
  assert (Hquiet : ∀ j, j < conn →
            (∀ cid c, Session.Clients s !! cid = Some c → Client.Conn c = Some j → cid = id) →
            outbox (spawn client p
                      (broadcastToSession sessionID (client_joined id) id w2)) j
            = outbox w j).
  { intros j Hlt Hj. apply outbox_same.
    change (conns (broadcastToSession sessionID (client_joined id) id w2) !! j
            = conns w !! j).
    rewrite Hrest; [by apply Hw2|]. intros cid c Hc Hcj. cbn in Hc.
    apply lookup_insert_Some in Hc as [[<- _]|[_ Hc]]; [done|eauto]. }
  split; [done|]. split.
  { cbn. rewrite broadcast_store. cbn. by rewrite lookup_insert_eq. }
  split.
  { exists (add_client client s). split.
    - cbn. by rewrite broadcast_heap.
    - cbn. by rewrite lookup_insert_eq. }
  split.
  { unfold outbox.
    change (conns (spawn client p (broadcastToSession sessionID (client_joined id) id w2)))
      with (conns (broadcastToSession sessionID (client_joined id) id w2)).
    rewrite Hrest.
    - cbn. unfold WriteJSON. rewrite list_lookup_alter_eq.
      rewrite lookup_app_r by (unfold conn; lia). unfold conn.
      by rewrite Nat.sub_diag.
    - intros cid c Hc Hcj. cbn in Hc.
      apply lookup_insert_Some in Hc as [[<- _]|[_ Hc]]; [done|].
      pose proof (Hold _ _ _ Hc Hcj). lia. }
  split.
  { intros cid c Hc Hne. destruct (Hsend cid c) as (j & Hj & Hout); [|done|].
    - cbn. by rewrite lookup_insert_ne.
    - exists j. split; [done|].
      change (outbox (broadcastToSession sessionID (client_joined id) id w2) j
              = outbox w j ++ [client_joined id]).
      rewrite Hout. f_equal. apply outbox_same, Hw2. eauto. }
  split; [exact Hquiet|].
  intros q cid c j Hq Hm Hj. apply Hquiet.
  - destruct (wf_conn _ Hwf _ _ _ Hm) as (j' & Hj' & Hlt). unfold conn. congruence.
  - intros cid' c' Hc' Hj'.
    destruct (wf_inj _ Hwf q cid c p cid' c' j); try done. by exists s.
Qed.

(** ** Calls for a client that is no longer registered *)

Lemma remove_client_absent id s :
  Session.Clients s !! id = None → remove_client id s = s.
Proof.
  intros Hid. destruct s as [i n t cl]. unfold remove_client; cbn in *.
  by rewrite delete_id.
Qed.

(** The deferred cleanup for a client id that is in neither map. *)
Lemma leave_absent_effect w c sp s k :
  world_wf w → heap w !! sp = Some s →
  Client.Conn c = Some k → k < length (conns w) →
  (∀ q id c', member w q id c' → Client.Conn c' = Some k → q = sp ∧ id = Client.ID c) →
  InMemoryStore.Clients (store w) !! Client.ID c = None →
  (∀ sid q s', registered w sid q → heap w !! q = Some s' →
     Session.Clients s' !! Client.ID c = None) →
  let w' := leave c sp w in
  store w' = store w
  ∧ (∀ sid q, registered w sid q → heap w' !! q = heap w !! q)
  ∧ is_closed w' k
  ∧ (∀ q s', registered w (Session.ID s) q → heap w !! q = Some s' →
     ∀ cid c', Session.Clients s' !! cid = Some c' →
       ∃ j, Client.Conn c' = Some j
            ∧ outbox w' j = outbox w j ++ [client_left (Client.ID c)])
  ∧ (InMemoryStore.Sessions (store w) !! Session.ID s = None →
     ∀ j, j ≠ k → conns w' !! j = conns w !! j).
Proof.
  intros Hwf Hs Hk Hlt Hown Hindex Hsessions w'. subst w'.
  split.
  { rewrite leave_store. destruct (store w) as [ss cc]. cbn in *.
    by rewrite delete_id. }
  split.
  { intros sid q Hr. rewrite leave_heap. rewrite list_lookup_alter.
    case_decide as Hq; [|done]. subst q. rewrite Hs. cbn. f_equal.
    apply remove_client_absent. by eapply Hsessions. }
  split; [by apply leave_closed|]. split.
  - intros q s' Hr Hs' cid c' Hc'.
    apply (leave_delivers w c sp s k q s' Hwf Hs Hk Hown Hr Hs' cid c' Hc').
    intros [-> ->]. assert (s' = s) as -> by congruence.
    rewrite (Hsessions _ _ _ Hr Hs) in Hc'. done.
  - intros Hr j Hj. rewrite (leave_silent _ _ _ _ Hs Hr). rewrite Hk. cbn.
    unfold Close. by rewrite list_lookup_alter_ne.
Qed.

(** A relay is dropped when no session is registered under the id of
    the sender's session, and delivered otherwise; the sender is not
    looked up. *)
Lemma relay_effect w c sp s data :
  heap w !! sp = Some s →
  (InMemoryStore.Sessions (store w) !! Session.ID s = None →
   relay c sp data w = w)
  ∧ (world_wf w →
     ∀ q s', registered w (Session.ID s) q → heap w !! q = Some s' →
     ∀ cid c', Session.Clients s' !! cid = Some c' → cid ≠ Client.ID c →
       ∃ j, Client.Conn c' = Some j
            ∧ outbox (relay c sp data w) j
              = outbox w j ++ [screen_data (Client.ID c) data]).
Proof.
  intros Hs. unfold relay. rewrite Hs. split.
  - apply broadcast_unregistered.
  - intros Hwf q s' Hr Hs' cid c' Hc' Hne.
    destruct (broadcast_delivers w (Session.ID s) q s'
                (screen_data (Client.ID c) data) (Client.ID c) Hwf Hr Hs')
      as [Hsend _].
    exact (Hsend cid c' Hc' Hne).
Qed.

(** ** Runs in which no id is ever repeated *)

Lemma goroutines_wf_new : goroutines_wf NewWorld [].
Proof.
  constructor; cbn.
  - intros ?? H. by rewrite lookup_nil in H.
  - intros ???? H. by rewrite lookup_nil in H.
  - intros ??? H. by rewrite lookup_nil in H.
  - intros ??? ??? H. by rewrite lookup_nil in H.
Qed.

Lemma goroutines_wf_skeleton w w' used_s :
  heap w' = heap w → goroutines w' = goroutines w →
  goroutines_wf w used_s → goroutines_wf w' used_s.
Proof.
  intros Hh Hg [G1 G2 G3 G4].
  constructor; unfold member in *; rewrite ?Hh, ?Hg; done.
Qed.

Lemma goroutines_wf_created name rand now w used_s :
  goroutines_wf w used_s → generateID rand ∉ used_s →
  goroutines_wf (created name rand now w) (generateID rand :: used_s).
Proof.
  intros [G1 G2 G3 G4] Hfresh.
  assert (Hheap : ∀ p s, heap (created name rand now w) !! p = Some s →
            heap w !! p = Some s
            ∨ (p = length (heap w) ∧ Session.ID s = generateID rand)).
  { intros p s Hs. cbn in Hs. apply lookup_app_Some in Hs as [Hs|[Hge Hs]]; [by left|].
    right. apply list_lookup_singleton_Some in Hs as [Hp <-]. split; [lia|done]. }
  constructor.
  - intros p s [Hs|[_ ->]]%Hheap.
    + apply list_elem_of_further. eauto.
    + apply list_elem_of_here.
  - intros p1 s1 p2 s2 [Hs1|[-> Hid1]]%Hheap [Hs2|[-> Hid2]]%Hheap Hid.
    + eauto.
    + destruct Hfresh. rewrite <- Hid2, <- Hid. eauto.
    + destruct Hfresh. rewrite <- Hid1, Hid. eauto.
    + done.
  - intros g c sp Hg. apply member_created. eauto.
  - intros g1 c1 sp1 g2 c2 sp2 Hg1 Hg2. eapply G4; done.
Qed.

Lemma goroutines_wf_join sessionID rand p w used_s used_c :
  ids_wf w used_c → goroutines_wf w used_s → p < length (heap w) →
  generateID rand ∉ used_c →
  goroutines_wf (spawn (new_client sessionID rand (length (conns w))) p
                   (register (new_client sessionID rand (length (conns w))) p
                      (Upgrade w).1))
                used_s.
Proof.
  intros [I1 I2 I3 I4] [G1 G2 G3 G4] Hp Hfresh.
  pose proof (λ q id c, member_joined sessionID rand p w q id c Hp) as Hmem.
  set (client := new_client sessionID rand (length (conns w))) in *.
  assert (Hheap : ∀ q s', heap (spawn client p (register client p (Upgrade w).1)) !! q
                          = Some s' →
            ∃ s, heap w !! q = Some s ∧ Session.ID s' = Session.ID s).
  { intros q s' Hs'. cbn in Hs'. apply heap_alter_lookup in Hs' as (s & Hs & ->).
    exists s. split; [done|]. by case_decide. }
  constructor.
  - intros q s' (s & Hs & ->)%Hheap. eauto.
  - intros p1 s1 p2 s2 (s1' & Hs1 & ->)%Hheap (s2' & Hs2 & ->)%Hheap. eauto.
  - intros g c sp Hg. cbn in Hg. apply Hmem.
    apply lookup_app_Some in Hg as [Hg|[_ Hg]].
    + right. split; [eauto|]. intros [_ Hid]. apply Hfresh. rewrite <- Hid.
      by destruct (I4 g c sp Hg).
    + apply list_lookup_singleton_Some in Hg as [_ [= <- <-]]. by left.
  - intros g1 c1 sp1 g2 c2 sp2 Hg1 Hg2 Hid. cbn in Hg1, Hg2.
    apply lookup_app_Some in Hg1 as [Hg1|[Hge1 Hg1]];
      apply lookup_app_Some in Hg2 as [Hg2|[Hge2 Hg2]].
    + eauto.
    + apply list_lookup_singleton_Some in Hg2 as [_ [= <- <-]].
      destruct Hfresh. cbn in Hid. rewrite <- Hid. by destruct (I4 g1 c1 sp1 Hg1).
    + apply list_lookup_singleton_Some in Hg1 as [_ [= <- <-]].
      destruct Hfresh. cbn in Hid. rewrite Hid. by destruct (I4 g2 c2 sp2 Hg2).
    + apply list_lookup_singleton_Some in Hg1 as [Hz1 _].
      apply list_lookup_singleton_Some in Hg2 as [Hz2 _]. lia.
Qed.

Lemma goroutines_wf_leave g c sp w used_s :
  goroutines_wf w used_s → goroutines w !! g = Some (Some (c, sp)) →
  goroutines_wf (leave c sp (set_goroutines w (<[g := None]> (goroutines w)))) used_s.
Proof.
  intros [G1 G2 G3 G4] Hg.
  set (w0 := set_goroutines w (<[g := None]> (goroutines w))).
  apply (goroutines_wf_skeleton (unregister c sp (close_conn (Client.Conn c) w0))).
  { by rewrite leave_heap; cbn; rewrite close_conn_heap. }
  { unfold leave. cbn zeta. destruct (heap _ !! sp); [|done]. apply broadcast_goroutines. }
  assert (Hheap : ∀ q s', heap (unregister c sp (close_conn (Client.Conn c) w0)) !! q
                          = Some s' →
            ∃ s, heap w !! q = Some s ∧ Session.ID s' = Session.ID s).
  { intros q s' Hs'. cbn in Hs'. rewrite close_conn_heap in Hs'.
    apply heap_alter_lookup in Hs' as (s & Hs & ->).
    exists s. split; [done|]. by case_decide. }
  assert (Hgs : ∀ g' c' sp', goroutines (unregister c sp (close_conn (Client.Conn c) w0)) !! g'
                             = Some (Some (c', sp')) →
            g' ≠ g ∧ goroutines w !! g' = Some (Some (c', sp'))).
  { intros g' c' sp' Hg'. cbn in Hg'.
    assert (goroutines (close_conn (Client.Conn c) w0) = <[g := None]> (goroutines w))
      as Heq by (by destruct (Client.Conn c)).
    rewrite Heq in Hg'.
    apply list_lookup_insert_Some in Hg' as [(_ & [=] & _)|[Hne Hg']]. done. }
  constructor.
  - intros q s' (s & Hs & ->)%Hheap. eauto.
  - intros p1 s1 p2 s2 (s1' & Hs1 & ->)%Hheap (s2' & Hs2 & ->)%Hheap. eauto.
  - intros g' c' sp' [Hne Hg']%Hgs. apply member_unregister. split.
    + unfold member. rewrite close_conn_heap. by apply (G3 g').
    + intros [_ Hid]. apply Hne. by eapply G4.
  - intros g1 c1 sp1 g2 c2 sp2 [_ Hg1]%Hgs [_ Hg2]%Hgs. eauto.
Qed.

Lemma unique_step_fresh op w used_s used_c :
  world_wf w → goroutines_wf w used_s →
  unique_step op w used_s used_c = true → fresh_step op w used_c = true.
Proof.
  intros Hwf Hgw Hu. destruct op as [req rand now| | | |]; try done. cbn in *.
  destruct (ShouldBindJSON req) as [err|name]; [done|].
  apply bool_decide_eq_true in Hu. apply bool_decide_eq_true.
  destruct (InMemoryStore.Sessions (store w) !! generateID rand) as [p|] eqn:Hr; [|done].
  destruct Hu. destruct (wf_registered _ Hwf _ _ Hr) as (s & Hs & <-).
  by eapply gw_used.
Qed.

Lemma goroutines_wf_step op w used_s used_c :
  world_wf w → ids_wf w used_c → goroutines_wf w used_s →
  unique_step op w used_s used_c = true →
  goroutines_wf (step op w) (minted_session op ++ used_s).
Proof.
  intros Hwf Hids Hgw Hu.
  destruct op as [req rand now|id|sessionID upgrade_ok rand|g message|g]; cbn in *.
  - destruct (ShouldBindJSON req) as [err|name] eqn:Hreq.
    + by rewrite (createSession_invalid _ _ _ _ _ Hreq).
    + rewrite (createSession_valid _ _ _ _ _ Hreq). cbn.
      apply goroutines_wf_created; [done|]. by apply bool_decide_eq_true in Hu.
  - destruct (InMemoryStore.Sessions (store w) !! id) as [p|] eqn:Hr.
    + destruct (wf_registered _ Hwf _ _ Hr) as (s & Hs & _).
      rewrite (deleteSession_registered _ _ _ _ Hr Hs).
      by apply (goroutines_wf_skeleton w).
    + by rewrite deleteSession_unregistered.
  - destruct upgrade_ok.
    + destruct (InMemoryStore.Sessions (store w) !! sessionID) as [p|] eqn:Hr.
      * apply bool_decide_eq_true in Hu.
        destruct (wf_registered _ Hwf _ _ Hr) as (s & Hs%lookup_lt_Some & _).
        rewrite (handleWebSocket_joined _ _ _ _ Hr). cbn zeta.
        eapply goroutines_wf_skeleton;
          [..|by apply (goroutines_wf_join sessionID rand p w used_s used_c)]; cbn.
        -- by rewrite broadcast_heap.
        -- by rewrite broadcast_goroutines.
      * by rewrite handleWebSocket_not_found.
    + unfold handleWebSocket. by destruct (InMemoryStore.Sessions (store w) !! sessionID).
  - destruct (goroutines w !! g) as [[[c sp]|]|]; try done.
    destruct (relay_skeleton c sp message w) as (_ & Hh & Hg & _).
    by apply (goroutines_wf_skeleton w).
  - destruct (goroutines w !! g) as [[[c sp]|]|] eqn:Hg; try done.
    by apply goroutines_wf_leave.
Qed.

Lemma unique_run_invariants ops w used_s used_c :
  world_wf w → ids_wf w used_c → goroutines_wf w used_s →
  unique_run ops w used_s used_c = true →
  ∃ used_s' used_c', ids_wf (run ops w) used_c' ∧ goroutines_wf (run ops w) used_s'.
Proof.
  revert w used_s used_c.
  induction ops as [|op ops IH]; intros w used_s used_c Hwf Hids Hgw Hu.
  - by exists used_s, used_c.
  - cbn in Hu. apply andb_true_iff in Hu as [Hstep Hrun].
    apply (IH (step op w) (minted_session op ++ used_s) (minted op w ++ used_c));
      [by apply world_wf_step| |by eapply goroutines_wf_step|done].
    apply ids_wf_step; [done..|]. by eapply unique_step_fresh.
Qed.

(** In a run without repeated ids, a live goroutine whose client id is
    gone from the global index finds no session registered under the id
    of its session: only deleteSession can have removed the id. *)
Lemma absent_means_unregistered ops g c sp s :
  unique_run ops NewWorld [] [] = true →
  goroutines (run ops NewWorld) !! g = Some (Some (c, sp)) →
  heap (run ops NewWorld) !! sp = Some s →
  InMemoryStore.Clients (store (run ops NewWorld)) !! Client.ID c = None →
  InMemoryStore.Sessions (store (run ops NewWorld)) !! Session.ID s = None.
Proof.
  intros Hu Hg Hs Hindex.
  destruct (unique_run_invariants ops NewWorld [] [] world_wf_new ids_wf_new
              goroutines_wf_new Hu) as (used_s & used_c & Hids & Hgw).
  assert (world_wf (run ops NewWorld)) as Hwf by apply world_wf_run, world_wf_new.
  destruct (InMemoryStore.Sessions (store (run ops NewWorld)) !! Session.ID s)
    as [q|] eqn:Hr; [|done].
  destruct (wf_registered _ Hwf _ _ Hr) as (s' & Hs' & Hid).
  assert (q = sp) as -> by (by eapply gw_heap).
  pose proof (gw_member _ _ Hgw _ _ _ Hg) as Hm.
  rewrite (iw_member _ _ Hids _ _ _ _ Hr Hm) in Hindex. done.
Qed.

(** ** Between the two critical sections of handleWebSocket *)

(** handleWebSocket releases the store's lock after the lookup and takes
    it again to register the client, without looking the session up a
    second time.  When deleteSession runs in between, the client is
    registered in the global index and in the deleted session object:
    the index then has an entry whose session is not registered.  The
    runs of [run] take each handler as a whole and do not contain this
    interleaving. *)
Lemma join_overtaken_by_delete :
  InMemoryStore.Sessions (store only_session) !! "id_ssssssss" = Some 0
  ∧ InMemoryStore.Sessions (store overtaken) !! "id_ssssssss" = None
  ∧ InMemoryStore.Clients (store overtaken) !! "id_aaaaaaaa" = Some clientA
  ∧ ¬ registry_consistent overtaken.
Proof.
  split; [vm_compute; reflexivity|]. split; [vm_compute; reflexivity|].
  split; [vm_compute; reflexivity|].
  intros [_ Hindex]. destruct (Hindex "id_aaaaaaaa" clientA) as (p & Hr & _).
  - vm_compute. reflexivity.
  - vm_compute in Hr. discriminate.
Qed.

(** ** utils.go: the characters of a random string *)

Lemma get_lookup (s : string) i : String.get i s = String.list_ascii_of_string s !! i.
Proof.
  revert i. induction s as [|c s IH]; intros [|i]; cbn; try done.
Qed.

Lemma length_list_ascii (s : string) :
  length (String.list_ascii_of_string s) = String.length s.
Proof. induction s as [|c s IH]; cbn; [done|]. by rewrite IH. Qed.

Lemma charset_NoDup : NoDup (String.list_ascii_of_string charset).
Proof. apply (bool_decide_unpack _). by vm_compute. Qed.

Lemma charset_at_get i :
  i < String.length charset →
  ∃ c, String.get i charset = Some c ∧ charset_at i = String c EmptyString.
Proof.
  intros Hi. unfold charset_at.
  destruct (String.get i charset) as [c|] eqn:Hget; [by exists c|].
  rewrite get_lookup in Hget. apply lookup_ge_None in Hget.
  rewrite length_list_ascii in Hget. lia.
Qed.

Lemma charset_at_inj i j :
  i < String.length charset → j < String.length charset →
  charset_at i = charset_at j → i = j.
Proof.
  intros Hi Hj Heq.
  destruct (charset_at_get i Hi) as (c & Hc & Hi').
  destruct (charset_at_get j Hj) as (d & Hd & Hj').
  rewrite Hi', Hj' in Heq. injection Heq as <-. rewrite get_lookup in Hc, Hd.
  exact (NoDup_lookup _ _ _ _ charset_NoDup Hc Hd).
Qed.

Lemma randomString_from_S i n rand :
  randomString_from i (S n) rand
  = charset_at (rand i mod String.length charset) +:+ randomString_from (S i) n rand.
Proof. reflexivity. Qed.

Lemma append_single c (s : string) : String c EmptyString +:+ s = String c s.
Proof. reflexivity. Qed.

Lemma randomString_from_spec i n rand :
  String.length (randomString_from i n rand) = n
  ∧ ∀ c, c ∈ String.list_ascii_of_string (randomString_from i n rand) →
         c ∈ String.list_ascii_of_string charset.
Proof.
  revert i. induction n as [|n IH]; intros i.
  - split; [done|]. intros c Hc. by apply elem_of_nil in Hc.
  - rewrite randomString_from_S.
    destruct (charset_at_get (rand i mod String.length charset)) as (d & Hd & ->).
    { apply Nat.mod_upper_bound. done. }
    destruct (IH (S i)) as [Hlen Hin].
    rewrite append_single.
    split; [cbn [String.length]; by rewrite Hlen|].
    cbn [String.list_ascii_of_string].
    intros c [->|Hc]%elem_of_cons; [|by apply Hin].
    rewrite get_lookup in Hd. by eapply list_elem_of_lookup_2.
Qed.

Lemma randomString_from_inj i n r1 r2 :
  randomString_from i n r1 = randomString_from i n r2
  ↔ ∀ j, j < n → r1 (i + j) mod String.length charset
                 = r2 (i + j) mod String.length charset.
Proof.
  revert i. induction n as [|n IH]; intros i.
  - split; [lia|done].
  - rewrite !randomString_from_S.
    destruct (charset_at_get (r1 i mod String.length charset)) as (d1 & Hd1 & Heq1).
    { apply Nat.mod_upper_bound. done. }
    destruct (charset_at_get (r2 i mod String.length charset)) as (d2 & Hd2 & Heq2).
    { apply Nat.mod_upper_bound. done. }
    split.
    + intros Heq j Hj.
      assert (charset_at (r1 i mod String.length charset)
              = charset_at (r2 i mod String.length charset)
              ∧ randomString_from (S i) n r1 = randomString_from (S i) n r2)
        as [Hhead Htail].
      { rewrite Heq1, Heq2 in *. rewrite !append_single in Heq.
        by injection Heq as -> ->. }
      destruct j as [|j].
      * rewrite Nat.add_0_r.
        apply charset_at_inj; [apply Nat.mod_upper_bound..|]; done.
      * replace (i + S j) with (S i + j) by lia. apply IH; [done|lia].
    + intros Hdraws. f_equal.
      * specialize (Hdraws 0). rewrite Nat.add_0_r in Hdraws. rewrite Hdraws; [done|lia].
      * apply IH. intros j Hj. replace (S i + j) with (i + S j) by lia.
        apply Hdraws. lia.
Qed.

(** ** getSessions and getSession *)

Lemma elem_of_getSessions w s :
  s ∈ sessions (getSessions w)
  ↔ ∃ id p, registered w id p ∧ heap w !! p = Some s.
Proof.
  unfold getSessions, registered. cbn. rewrite list_elem_of_omap. split.
  - intros [[id p] [Hin%elem_of_map_to_list Hs]]. eauto.
  - intros (id & p & Hr%elem_of_map_to_list & Hs). by exists (id, p).
Qed.

Lemma getSessions_ids w :
  world_wf w →
  Session.ID <$> sessions (getSessions w)
  = (map_to_list (InMemoryStore.Sessions (store w))).*1.
Proof.
  intros Hwf. unfold getSessions. cbn.
  assert (Hall : ∀ id p, (id, p) ∈ map_to_list (InMemoryStore.Sessions (store w)) →
            ∃ s, heap w !! p = Some s ∧ Session.ID s = id).
  { intros id p Hin%elem_of_map_to_list. by apply (wf_registered _ Hwf). }
  induction (map_to_list (InMemoryStore.Sessions (store w))) as [|[id p] l IH]; [done|].
  destruct (Hall id p) as (s & Hs & Hid); [apply list_elem_of_here|].
  cbn. rewrite Hs. cbn. rewrite Hid, IH; [done|].
  intros ???. apply Hall. by apply list_elem_of_further.
Qed.

Lemma getSession_found w id p s :
  registered w id p → heap w !! p = Some s →
  getSession id w = {| status := StatusOK; body := BodySession s |}.
Proof. intros Hr Hs. unfold getSession, registered in *. by rewrite Hr, Hs. Qed.

Lemma getSession_not_found w id :
  InMemoryStore.Sessions (store w) !! id = None →
  getSession id w = {| status := StatusNotFound; body := BodyError "Session not found" |}.
Proof. intros Hr. unfold getSession. by rewrite Hr. Qed.

Lemma getSessions_spec w :
  world_wf w →
  list_status (getSessions w) = StatusOK
  ∧ length (sessions (getSessions w)) = size (InMemoryStore.Sessions (store w))
  ∧ NoDup (Session.ID <$> sessions (getSessions w))
  ∧ (∀ id, id ∈ (Session.ID <$> sessions (getSessions w))
           ↔ is_Some (InMemoryStore.Sessions (store w) !! id))
  ∧ (∀ s, s ∈ sessions (getSessions w)
          ↔ getSession (Session.ID s) w
            = {| status := StatusOK; body := BodySession s |}).
Proof.
  intros Hwf. pose proof (getSessions_ids w Hwf) as Hids.
  split; [done|]. split; [|split; [|split]].
  - rewrite <- (length_fmap Session.ID), Hids, length_fmap. apply length_map_to_list.
  - rewrite Hids. apply NoDup_fst_map_to_list.
  - intros id. rewrite Hids, list_elem_of_fmap. split.
    + intros [[id' p] [-> Hin%elem_of_map_to_list]]. by exists p.
    + intros [p Hp%elem_of_map_to_list]. by exists (id, p).
  - intros s. rewrite elem_of_getSessions. split.
    + intros (id & p & Hr & Hs).
      destruct (wf_registered _ Hwf _ _ Hr) as (s' & Hs' & <-).
      assert (s' = s) as -> by congruence. by apply (getSession_found w _ p).
    + unfold getSession. intros Hget.
      destruct (InMemoryStore.Sessions (store w) !! Session.ID s) as [p|] eqn:Hr; [|done].
      destruct (heap w !! p) as [s'|] eqn:Hs; [|done].
      injection Hget as ->. by exists (Session.ID s), p.
Qed.

(** ** createSession, getSession and deleteSession together *)

Lemma getSession_old_pointer w w' id :
  world_wf w →
  InMemoryStore.Sessions (store w') !! id = InMemoryStore.Sessions (store w) !! id →
  (∀ p s, heap w !! p = Some s → heap w' !! p = Some s) →
  getSession id w' = getSession id w.
Proof.
  intros Hwf Hsame Hheap. unfold getSession. rewrite Hsame.
  destruct (InMemoryStore.Sessions (store w) !! id) as [p|] eqn:Hr; [|done].
  destruct (wf_registered _ Hwf _ _ Hr) as (s & Hs & _).
  by rewrite Hs, (Hheap _ _ Hs).
Qed.

Lemma createSession_getSession w name rand now :
  world_wf w → name ≠ EmptyString →
  let w' := (createSession (Some name) rand now w).1 in
  let r := (createSession (Some name) rand now w).2 in
  status r = StatusCreated
  ∧ getSession (generateID rand) w' = {| status := StatusOK; body := body r |}
  ∧ (∃ s, body r = BodySession s ∧ s ∈ sessions (getSessions w'))
  ∧ (∀ id, id ≠ generateID rand → getSession id w' = getSession id w).
Proof.
  intros Hwf Hname w' r. subst w' r.
  assert (ShouldBindJSON (Some name) = inr name) as Hreq.
  { unfold ShouldBindJSON. by rewrite decide_False. }
  unfold createSession. rewrite Hreq. cbn [fst snd status body].
  set (s := {| Session.ID := generateID rand; Session.Name := name;
               Session.CreatedAt := now; Session.Clients := ∅ |}).
  set (w' := {| store := _; heap := heap w ++ [s] |}).
  assert (registered w' (generateID rand) (length (heap w))) as Hr.
  { unfold registered. cbn. apply lookup_insert_eq. }
  assert (heap w' !! length (heap w) = Some s) as Hs.
  { cbn. rewrite lookup_app_r by lia. by rewrite Nat.sub_diag. }
  split; [done|]. split; [by apply (getSession_found w' _ (length (heap w)))|]. split.
  - exists s. split; [done|]. apply elem_of_getSessions. eauto.
  - intros id Hne. apply getSession_old_pointer; [done| |].
    + cbn. by rewrite lookup_insert_ne.
    + intros p s' Hs'. cbn. by apply lookup_app_l_Some.
Qed.

Lemma deleteSession_gone w id upgrade_ok rand :
  world_wf w →
  let w' := (deleteSession id w).1 in
  let not_found := {| status := StatusNotFound; body := BodyError "Session not found" |} in
  getSession id w' = not_found
  ∧ deleteSession id w' = (w', not_found)
  ∧ handleWebSocket id upgrade_ok rand w' = (w', WsNotFound not_found)
  ∧ (∀ s, s ∈ sessions (getSessions w') → Session.ID s ≠ id)
  ∧ (∀ id', id' ≠ id → getSession id' w' = getSession id' w).
Proof.
  intros Hwf w' not_found.
  assert (world_wf w') as Hwf' by (by apply world_wf_deleteSession).
  assert (InMemoryStore.Sessions (store w') !! id = None
          ∧ heap w' = heap w
          ∧ ∀ id', id' ≠ id → InMemoryStore.Sessions (store w') !! id'
                              = InMemoryStore.Sessions (store w) !! id')
    as (Hnone & Hheap & Hother).
  { subst w'. destruct (InMemoryStore.Sessions (store w) !! id) as [p|] eqn:Hr.
    - destruct (wf_registered _ Hwf _ _ Hr) as (s & Hs & _).
      rewrite (deleteSession_registered _ _ _ _ Hr Hs). cbn.
      split; [apply lookup_delete_eq|]. split; [done|].
      intros id' Hne. by rewrite lookup_delete_ne.
    - by rewrite deleteSession_unregistered. }
  split; [by apply getSession_not_found|].
  split; [by apply deleteSession_unregistered|].
  split; [by apply handleWebSocket_not_found|]. split.
  - intros s (id0 & p & Hr & Hs)%elem_of_getSessions <-.
    destruct (wf_registered _ Hwf' _ _ Hr) as (s' & Hs' & <-).
    assert (s' = s) as -> by congruence. unfold registered in Hr. congruence.
  - intros id' Hne. unfold getSession. by rewrite Hother, Hheap.
Qed.

(** ** Traffic does not show in the HTTP answers *)

Lemma heap_alter_json f p (h : list Session.t) q :
  (∀ s, session_json (f s) = session_json s) →
  session_json <$> alter f p h !! q = session_json <$> h !! q.
Proof.
  intros Hf. rewrite list_lookup_alter. case_decide as Hq; [subst q|done].
  destruct (h !! p) as [s|]; [|done]. cbn. by rewrite Hf.
Qed.

Lemma traffic_step op w :
  is_traffic op = true →
  InMemoryStore.Sessions (store (step op w)) = InMemoryStore.Sessions (store w)
  ∧ ∀ p, session_json <$> heap (step op w) !! p = session_json <$> heap w !! p.
Proof.
  intros Hop.
  destruct op as [req rand now|id|sessionID upgrade_ok rand|g message|g]; try done; cbn.
  - destruct upgrade_ok.
    + destruct (InMemoryStore.Sessions (store w) !! sessionID) as [p|] eqn:Hr.
      * rewrite (handleWebSocket_joined _ _ _ _ Hr). cbn zeta. cbn [fst spawn store heap].
        rewrite broadcast_store, broadcast_heap. cbn. split; [done|].
        intros q. by apply heap_alter_json.
      * by rewrite handleWebSocket_not_found.
    + unfold handleWebSocket. by destruct (InMemoryStore.Sessions (store w) !! sessionID).
  - destruct (goroutines w !! g) as [[[c sp]|]|]; try done.
    destruct (relay_skeleton c sp message w) as (-> & -> & _). done.
  - destruct (goroutines w !! g) as [[[c sp]|]|]; try done.
    rewrite leave_store, leave_heap. cbn. split; [done|].
    intros q. by apply heap_alter_json.
Qed.

Lemma traffic_run ops w :
  forallb is_traffic ops = true →
  InMemoryStore.Sessions (store (run ops w)) = InMemoryStore.Sessions (store w)
  ∧ ∀ p, session_json <$> heap (run ops w) !! p = session_json <$> heap w !! p.
Proof.
  revert w. induction ops as [|op ops IH]; intros w Hops; [done|].
  cbn in Hops. apply andb_true_iff in Hops as [Hop Hops].
  destruct (IH (step op w) Hops) as [Hst Hh].
  destruct (traffic_step op w Hop) as [Hst' Hh'].
  cbn [run foldl] in *. fold (run ops (step op w)).
  rewrite Hst, Hst'. split; [done|]. intros p. by rewrite Hh, Hh'.
Qed.

Lemma traffic_answers ops w :
  forallb is_traffic ops = true →
  (∀ id, response_json (getSession id (run ops w)) = response_json (getSession id w))
  ∧ session_json <$> sessions (getSessions (run ops w))
    = session_json <$> sessions (getSessions w).
Proof.
  intros Hops. destruct (traffic_run ops w Hops) as [Hst Hh]. split.
  - intros id. unfold getSession. rewrite Hst.
    destruct (InMemoryStore.Sessions (store w) !! id) as [p|]; [|done].
    specialize (Hh p).
    destruct (heap (run ops w) !! p), (heap w !! p); try done.
    cbn in Hh. unfold response_json. cbn. congruence.
  - unfold getSessions. cbn. rewrite Hst.
    induction (map_to_list (InMemoryStore.Sessions (store w))) as [|[id p] l IH]; [done|].
    cbn. specialize (Hh p).
    destruct (heap (run ops w) !! p), (heap w !! p); try done; cbn.
    cbn in Hh. f_equal; [congruence|exact IH].
Qed.

(** ** deleteSession and the connections *)

Lemma deleteSession_conns id w :
  let w' := (deleteSession id w).1 in
  (∀ k, outbox w' k = outbox w k)
  ∧ length (conns w') = length (conns w)
  ∧ goroutines w' = goroutines w
  ∧ (∀ p s k, registered w id p → heap w !! p = Some s →
       (∀ cid c, Session.Clients s !! cid = Some c → Client.Conn c ≠ Some k) →
       conns w' !! k = conns w !! k)
  ∧ (InMemoryStore.Sessions (store w) !! id = None → w' = w).
Proof.
  intros w'. subst w'.
  destruct (InMemoryStore.Sessions (store w) !! id) as [p|] eqn:Hr;
    [|by rewrite deleteSession_unregistered].
  destruct (heap w !! p) as [s|] eqn:Hs.
  - rewrite (deleteSession_registered _ _ _ _ Hr Hs). cbn [fst].
    split; [|split; [|split; [done|split; [|done]]]].
    + intros k. unfold outbox, deleted. cbn.
      pose proof (close_all_written (member_conns (map_to_list (Session.Clients s)))
                    (conns w) k) as Hw.
      destruct (close_all _ _ !! k), (conns w !! k); cbn in Hw; congruence.
    + cbn. apply close_all_length.
    + intros p' s' k Hr' Hs' Hk. unfold registered in Hr'.
      assert (p' = p) as -> by congruence. assert (s' = s) as -> by congruence.
      cbn. apply close_all_notin. intros (cid & c & Hc & Hkc)%elem_of_member_conns.
      by apply (Hk cid c).
  - unfold deleteSession. rewrite Hr, Hs. cbn. repeat split; try done.
Qed.

(** ** A join followed by the disconnect *)

Lemma join_leave_registry w sessionID p s rand inbound :
  registered w sessionID p → heap w !! p = Some s →
  InMemoryStore.Clients (store w) !! generateID rand = None →
  Session.Clients s !! generateID rand = None →
  let client := new_client sessionID rand (length (conns w)) in
  let w1 := (handleWebSocket sessionID true rand w).1 in
  let w2 := handleMessages client p inbound w1 in
  store w2 = store w ∧ heap w2 = heap w ∧ is_closed w2 (length (conns w)).
Proof.
  intros Hr Hs Hindex Hmember client w1 w2. subst w2 w1.
  rewrite (handleWebSocket_joined _ _ _ _ Hr). cbn zeta. cbn [fst]. fold client.
  set (w1 := spawn client p _).
  assert (store w1 = {| InMemoryStore.Sessions := InMemoryStore.Sessions (store w);
                        InMemoryStore.Clients :=
                          <[generateID rand := client]> (InMemoryStore.Clients (store w)) |}
          ∧ heap w1 = alter (add_client client) p (heap w)
          ∧ length (conns w1) = S (length (conns w))) as (Hst1 & Hh1 & Hlen1).
  { unfold w1. cbn [spawn store heap conns].
    rewrite broadcast_store, broadcast_heap, broadcast_conns_length. cbn.
    split; [done|]. split; [done|].
    rewrite WriteJSON_length, length_app. cbn. lia. }
  unfold handleMessages.
  destruct (relay_loop_skeleton client p inbound w1) as (Hst & Hh & _ & Hlen & _).
  rewrite leave_store, leave_heap, Hst, Hh, Hst1, Hh1. cbn.
  split; [|split].
  - rewrite delete_insert_id by done. by destruct (store w) as [a b].
  - rewrite list_alter_alter_eq. apply list_eq. intros q.
    rewrite list_lookup_alter. case_decide as Hq; [|done]. subst q. rewrite Hs. cbn.
    f_equal. destruct s as [i n t cl]. unfold remove_client, add_client. cbn in *.
    f_equal. by apply delete_insert_id.
  - apply (leave_closed client p (length (conns w))); [done|]. rewrite Hlen, Hlen1. lia.
Qed.

(** ** The receive loop keeps the order of the messages *)

Lemma relay_loop_delivers w c sp s inbound :
  world_wf w → heap w !! sp = Some s → registered w (Session.ID s) sp →
  let w1 := foldl (λ acc message, relay c sp message acc) w inbound in
  (∀ cid c', Session.Clients s !! cid = Some c' → cid ≠ Client.ID c →
     ∃ j, Client.Conn c' = Some j
          ∧ outbox w1 j = outbox w j ++ (screen_data (Client.ID c) <$> inbound))
  ∧ (∀ k, (∀ cid c', Session.Clients s !! cid = Some c' → Client.Conn c' = Some k →
             cid = Client.ID c) →
       conns w1 !! k = conns w !! k).
Proof.
  revert w. induction inbound as [|message inbound IH]; intros w Hwf Hs Hr; cbn zeta.
  - split; [|done]. intros cid c' Hc' Hne.
    destruct (wf_conn _ Hwf sp cid c') as (j & Hj & _); [by exists s|].
    exists j. by rewrite app_nil_r.
  - cbn [foldl].
    assert (relay c sp message w
            = broadcastToSession (Session.ID s) (screen_data (Client.ID c) message)
                (Client.ID c) w) as Hrelay by (unfold relay; by rewrite Hs).
    destruct (broadcast_delivers w (Session.ID s) sp s
                (screen_data (Client.ID c) message) (Client.ID c) Hwf Hr Hs)
      as [Hsend Hrest].
    rewrite <- Hrelay in Hsend, Hrest.
    destruct (relay_skeleton c sp message w) as (Hst & Hh & _).
    destruct (IH (relay c sp message w)) as [Hloop Hquiet].
    { by apply world_wf_relay. }
    { by rewrite Hh. }
    { unfold registered. by rewrite Hst. }
    split.
    + intros cid c' Hc' Hne.
      destruct (Hloop cid c' Hc' Hne) as (j & Hj & Hout).
      destruct (Hsend cid c' Hc' Hne) as (j' & Hj' & Hout').
      assert (j' = j) as -> by congruence.
      exists j. split; [done|]. rewrite Hout, Hout'. cbn. by rewrite <- app_assoc.
    + intros k Hk. rewrite (Hquiet k Hk). by apply Hrest.
Qed.

(** ** The fields of a session object *)

Lemma step_heap_json op w p s :
  heap w !! p = Some s →
  ∃ s', heap (step op w) !! p = Some s' ∧ session_json s' = session_json s.
Proof.
  intros Hs.
  assert (∀ h : list Session.t,
            session_json <$> h !! p = session_json <$> heap w !! p →
            ∃ s', h !! p = Some s' ∧ session_json s' = session_json s) as Hfrom.
  { intros h Hh. rewrite Hs in Hh. destruct (h !! p) as [s'|]; [|done].
    exists s'. split; [done|]. cbn in Hh. congruence. }
  destruct (is_traffic op) eqn:Hop.
  { apply Hfrom. by apply traffic_step. }
  destruct op as [req rand now|id| | |]; try done; cbn.
  - unfold createSession. destruct (ShouldBindJSON req); cbn; [eauto|].
    exists s. split; [|done]. by apply lookup_app_l_Some.
  - apply Hfrom. unfold deleteSession.
    destruct (InMemoryStore.Sessions (store w) !! id) as [q|]; [|done].
    destruct (heap w !! q); [|done]. by destruct (delete_loop _ _).
Qed.

(** ** The history of a connection *)

Lemma conn_extends_refl c : conn_extends c c.
Proof. split; [done|]. exists []. by rewrite app_nil_r. Qed.

Lemma conn_extends_trans c1 c2 c3 :
  conn_extends c1 c2 → conn_extends c2 c3 → conn_extends c1 c3.
Proof.
  intros [Hc1 (n1 & Hw1 & Hn1)] [Hc2 (n2 & Hw2 & Hn2)]. split.
  - intros Hc. rewrite Hc2; rewrite (Hc1 Hc); done.
  - exists (n1 ++ n2). rewrite Hw2, Hw1, <- app_assoc. split; [done|].
    by apply Forall_app.
Qed.

Lemma conn_extends_deliver m c : later_event m → conn_extends c (deliver m c).
Proof.
  intros Hm. unfold deliver. destruct (closed c) eqn:Hc.
  - apply conn_extends_refl.
  - split; [by rewrite Hc|]. exists [m]. split; [done|]. by apply Forall_singleton.
Qed.

Lemma conn_extends_shut c : conn_extends c (shut c).
Proof.
  split.
  - intros Hc. destruct c as [b l]. cbn in *. by subst b.
  - exists []. by rewrite app_nil_r.
Qed.

Lemma conns_extend_refl cs : conns_extend cs cs.
Proof.
  split.
  - intros k c Hk. exists c. split; [done|]. apply conn_extends_refl.
  - intros k c' Hk Hge. apply lookup_lt_Some in Hk. lia.
Qed.

Lemma conns_extend_length cs cs' : conns_extend cs cs' → length cs ≤ length cs'.
Proof.
  intros [Hold _]. destruct (decide (length cs = 0)) as [|Hne]; [lia|].
  destruct (lookup_lt_is_Some_2 cs (length cs - 1)) as [c Hc]; [lia|].
  destruct (Hold _ _ Hc) as (c' & Hc'%lookup_lt_Some & _). lia.
Qed.

Lemma conns_extend_trans cs1 cs2 cs3 :
  conns_extend cs1 cs2 → conns_extend cs2 cs3 → conns_extend cs1 cs3.
Proof.
  intros H12 H23. pose proof (conns_extend_length _ _ H12) as Hlen.
  destruct H12 as [Hold1 Hnew1], H23 as [Hold2 Hnew2]. split.
  - intros k c1 Hk. destruct (Hold1 _ _ Hk) as (c2 & Hk2 & H12).
    destruct (Hold2 _ _ Hk2) as (c3 & Hk3 & H23).
    exists c3. split; [done|]. by eapply conn_extends_trans.
  - intros k c3 Hk Hge. destruct (cs2 !! k) as [c2|] eqn:Hk2.
    + destruct (Hold2 _ _ Hk2) as (c3' & Hk3 & _ & new & Hw & Hnew).
      assert (c3' = c3) as -> by congruence.
      destruct (Hnew1 _ _ Hk2 Hge) as (sid & cid & rest & Hw2 & Hrest).
      exists sid, cid, (rest ++ new). rewrite Hw, Hw2. split; [done|].
      by apply Forall_app.
    + apply lookup_ge_None in Hk2. by eapply Hnew2.
Qed.

Lemma conns_extend_alter f k cs :
  (∀ c, conn_extends c (f c)) → conns_extend cs (alter f k cs).
Proof.
  intros Hf. split.
  - intros j c Hj. destruct (decide (k = j)) as [->|Hne].
    + exists (f c). rewrite list_lookup_alter_eq, Hj. done.
    + exists c. rewrite list_lookup_alter_ne by done. split; [done|].
      apply conn_extends_refl.
  - intros j c' Hj Hge. apply lookup_lt_Some in Hj. rewrite length_alter in Hj. lia.
Qed.

Lemma conns_extend_sendMessage conn m cs :
  later_event m → conns_extend cs (sendMessage conn m cs).
Proof.
  intros Hm. destruct conn as [k|]; [|apply conns_extend_refl].
  apply conns_extend_alter. intros c. by apply conn_extends_deliver.
Qed.

Lemma conns_extend_broadcast_loop m ex members cs :
  later_event m → conns_extend cs (broadcast_loop m ex members cs).
Proof.
  intros Hm. induction members as [|[id c] members IH]; [apply conns_extend_refl|].
  unfold broadcast_loop in *. cbn [foldr]. case_decide; [|done].
  eapply conns_extend_trans; [exact IH|]. by apply conns_extend_sendMessage.
Qed.

Lemma conns_extend_broadcast sessionID m ex w :
  later_event m → conns_extend (conns w) (conns (broadcastToSession sessionID m ex w)).
Proof.
  intros Hm. unfold broadcastToSession.
  destruct (InMemoryStore.Sessions (store w) !! sessionID) as [p|];
    [|apply conns_extend_refl].
  destruct (heap w !! p) as [s|]; [|apply conns_extend_refl].
  by apply conns_extend_broadcast_loop.
Qed.

Lemma conns_extend_delete_loop members cs clients :
  conns_extend cs (delete_loop members (cs, clients)).1.
Proof.
  rewrite delete_loop_split. cbn [fst].
  induction (member_conns members) as [|k ks IH]; [apply conns_extend_refl|].
  rewrite close_all_cons. eapply conns_extend_trans; [exact IH|].
  apply conns_extend_alter, conn_extends_shut.
Qed.

Lemma conns_extend_greet m cs :
  (∃ sessionID clientID, m = session_joined sessionID clientID) →
  conns_extend cs (sendMessage (Some (length cs)) m
                     (cs ++ [{| closed := false; written := [] |}])).
Proof.
  intros (sid & cid & ->). cbn. unfold WriteJSON. split.
  - intros k c Hk. exists c. split; [|apply conn_extends_refl].
    rewrite list_lookup_alter_ne by (apply lookup_lt_Some in Hk; lia).
    by apply lookup_app_l_Some.
  - intros k c' Hk Hge.
    pose proof (lookup_lt_Some _ _ _ Hk) as Hlt.
    rewrite length_alter, length_app in Hlt. cbn in Hlt.
    assert (k = length cs) as -> by lia.
    rewrite list_lookup_alter_eq, lookup_app_r, Nat.sub_diag in Hk by lia.
    injection Hk as <-. exists sid, cid, []. by split.
Qed.

Lemma conns_extend_relay c sp message w :
  conns_extend (conns w) (conns (relay c sp message w)).
Proof.
  unfold relay. destruct (heap w !! sp) as [s|]; [|apply conns_extend_refl].
  apply conns_extend_broadcast. unfold later_event. eauto 10.
Qed.

Lemma conns_extend_leave c sp w :
  conns_extend (conns w) (conns (leave c sp w)).
Proof.
  unfold leave. cbn zeta.
  assert (conns_extend (conns w)
            (conns (unregister c sp (close_conn (Client.Conn c) w)))) as Hclose.
  { cbn. destruct (Client.Conn c) as [k|]; [|apply conns_extend_refl].
    apply conns_extend_alter, conn_extends_shut. }
  destruct (heap _ !! sp) as [s|]; [|done].
  eapply conns_extend_trans; [exact Hclose|].
  apply conns_extend_broadcast. unfold later_event. eauto 10.
Qed.

Lemma conns_extend_step op w : conns_extend (conns w) (conns (step op w)).
Proof.
  destruct op as [req rand now|id|sessionID upgrade_ok rand|g message|g]; cbn.
  - unfold createSession. destruct (ShouldBindJSON req); apply conns_extend_refl.
  - unfold deleteSession.
    destruct (InMemoryStore.Sessions (store w) !! id) as [p|]; [|apply conns_extend_refl].
    destruct (heap w !! p) as [s|]; [|apply conns_extend_refl].
    pose proof (conns_extend_delete_loop (map_to_list (Session.Clients s)) (conns w)
                  (InMemoryStore.Clients (store w))) as H.
    by destruct (delete_loop _ _).
  - unfold handleWebSocket.
    destruct (InMemoryStore.Sessions (store w) !! sessionID) as [p|];
      [|apply conns_extend_refl].
    destruct upgrade_ok; [|apply conns_extend_refl].
    unfold handleWebSocket_serve. cbn [Upgrade fst snd spawn conns].
    eapply conns_extend_trans;
      [|apply conns_extend_broadcast; unfold later_event; eauto 10].
    cbn [set_conns conns register]. apply conns_extend_greet. eauto.
  - destruct (goroutines w !! g) as [[[c sp]|]|]; try apply conns_extend_refl.
    apply conns_extend_relay.
  - destruct (goroutines w !! g) as [[[c sp]|]|]; try apply conns_extend_refl.
    apply (conns_extend_leave c sp (set_goroutines w _)).
Qed.

Lemma conns_extend_run ops w : conns_extend (conns w) (conns (run ops w)).
Proof.
  revert w. induction ops as [|op ops IH]; intros w; [apply conns_extend_refl|].
  eapply conns_extend_trans; [apply conns_extend_step|]. apply IH.
Qed.

(** ** Every open connection has its goroutine *)

Lemma conns_extend_closed cs cs' k :
  conns_extend cs cs' → closed <$> cs !! k = Some true → closed <$> cs' !! k = Some true.
Proof.
  intros [Hold _] Hk. destruct (cs !! k) as [c|] eqn:Hc; [|done].
  destruct (Hold _ _ Hc) as (c' & -> & Hsame & _). cbn in *.
  injection Hk as Hk. by rewrite (Hsame Hk), Hk.
Qed.

Lemma is_closed_step op w k : is_closed w k → is_closed (step op w) k.
Proof. apply conns_extend_closed, conns_extend_step. Qed.

Lemma leave_conns_length c sp w : length (conns (leave c sp w)) = length (conns w).
Proof.
  unfold leave. cbn zeta.
  assert (length (conns (unregister c sp (close_conn (Client.Conn c) w)))
          = length (conns w)) as Hlen.
  { cbn. destruct (Client.Conn c); [|done]. cbn. unfold Close. by rewrite length_alter. }
  destruct (heap _ !! sp); [|done]. by rewrite broadcast_conns_length.
Qed.

Lemma leave_goroutines c sp w : goroutines (leave c sp w) = goroutines w.
Proof.
  unfold leave. cbn zeta.
  assert (goroutines (unregister c sp (close_conn (Client.Conn c) w)) = goroutines w)
    as Hgs by (by destruct (Client.Conn c)).
  destruct (heap _ !! sp); [|done]. by rewrite broadcast_goroutines.
Qed.

Lemma attended_new : attended NewWorld.
Proof.
  constructor; cbn; [done|..].
  - intros ??? H. by rewrite lookup_nil in H.
  - intros ? H. by rewrite lookup_nil in H.
Qed.

Lemma attended_same op w :
  goroutines (step op w) = goroutines w →
  length (conns (step op w)) = length (conns w) →
  attended w → attended (step op w).
Proof.
  intros Hgs Hlen [A1 A2 A3]. constructor; rewrite ?Hgs, ?Hlen; [done|done|].
  intros g Hg. by apply is_closed_step, A3.
Qed.

Lemma attended_step op w : attended w → attended (step op w).
Proof.
  intros Hat. pose proof Hat as [A1 A2 A3].
  destruct op as [req rand now|id|sessionID upgrade_ok rand|g message|g].
  - apply attended_same; [..|done]; cbn; unfold createSession;
      by destruct (ShouldBindJSON req).
  - apply attended_same; [| |done]; cbn; unfold deleteSession;
      destruct (InMemoryStore.Sessions (store w) !! id) as [p|]; try done;
      destruct (heap w !! p) as [s|]; try done;
      rewrite delete_loop_split; cbn; [done|apply close_all_length].
  - destruct (InMemoryStore.Sessions (store w) !! sessionID) as [p|] eqn:Hr;
      [destruct upgrade_ok|].
    + constructor.
      * cbn. rewrite (handleWebSocket_joined _ _ _ _ Hr). cbn zeta. cbn [fst spawn goroutines conns].
        rewrite broadcast_goroutines, broadcast_conns_length. cbn.
        rewrite WriteJSON_length, !length_app. cbn. lia.
      * intros g c sp Hg. cbn in Hg. rewrite (handleWebSocket_joined _ _ _ _ Hr) in Hg.
        cbn zeta in Hg. cbn [fst spawn goroutines] in Hg.
        rewrite broadcast_goroutines in Hg. cbn in Hg.
        apply lookup_app_Some in Hg as [Hg|[Hge Hg]]; [eauto|].
        apply list_lookup_singleton_Some in Hg as [Hz [= <- <-]]. cbn.
        f_equal. lia.
      * intros g Hg. cbn in Hg. rewrite (handleWebSocket_joined _ _ _ _ Hr) in Hg.
        cbn zeta in Hg. cbn [fst spawn goroutines] in Hg.
        rewrite broadcast_goroutines in Hg. cbn in Hg.
        apply lookup_app_Some in Hg as [Hg|[Hge Hg]].
        -- by apply is_closed_step, A3.
        -- by apply list_lookup_singleton_Some in Hg as [_ [=]].
    + apply attended_same; [| |done]; cbn; unfold handleWebSocket; by rewrite Hr.
    + apply attended_same; [| |done]; cbn; by rewrite handleWebSocket_not_found.
  - apply attended_same; [| |done]; cbn;
      destruct (goroutines w !! g) as [[[c sp]|]|]; try done;
      by destruct (relay_skeleton c sp message w) as (_ & _ & ? & ?).
  - cbn. destruct (goroutines w !! g) as [[[c sp]|]|] eqn:Hg; try done.
    pose proof (lookup_lt_Some _ _ _ Hg) as Hlt.
    constructor.
    + rewrite leave_goroutines, leave_conns_length. cbn. by rewrite length_insert.
    + intros g' c' sp' Hg'. rewrite leave_goroutines in Hg'. cbn in Hg'.
      apply list_lookup_insert_Some in Hg' as [(_ & [=] & _)|[_ Hg']]. eauto.
    + intros g' Hg'. rewrite leave_goroutines in Hg'. cbn in Hg'.
      apply list_lookup_insert_Some in Hg' as [(<- & _ & _)|[Hne Hg']].
      * apply leave_closed; [by eapply A2|]. cbn. lia.
      * pose proof (is_closed_step (OpDisconnect g) w g' (A3 g' Hg')) as Hc.
        cbn in Hc. by rewrite Hg in Hc.
Qed.

Lemma attended_run ops w : attended w → attended (run ops w).
Proof.
  revert w. induction ops as [|op ops IH]; intros w Hat; [done|].
  apply IH. by apply attended_step.
Qed.

(** ** Every stored client has a running goroutine *)

Lemma served_new : served NewWorld.
Proof.
  constructor; unfold member; cbn.
  - intros ?? H. by rewrite lookup_empty in H.
  - intros ?? H. by rewrite lookup_empty in H.
  - intros ??? (? & H & _). by rewrite lookup_nil in H.
Qed.

Lemma served_skeleton w w' :
  store w' = store w → heap w' = heap w → goroutines w' = goroutines w →
  served w → served w'.
Proof.
  intros Hst Hh Hg [S1 S2 S3].
  constructor; unfold member in *; rewrite ?Hst, ?Hh, ?Hg; done.
Qed.

Lemma served_created name rand now w : served w → served (created name rand now w).
Proof.
  intros [S1 S2 S3]. constructor; [done|done|].
  intros p id c Hm%member_created. eauto.
Qed.

Lemma served_deleted id s w : served w → served (deleted id s w).
Proof.
  intros [S1 S2 S3]. constructor; [| |done].
  - intros i c Hc. cbn in Hc. rewrite delete_all_lookup in Hc.
    case_decide; [done|]. eauto.
  - intros i c Hc. cbn in Hc. rewrite delete_all_lookup in Hc.
    case_decide; [done|]. eauto.
Qed.

Lemma served_join sessionID rand p w :
  served w → p < length (heap w) →
  served (spawn (new_client sessionID rand (length (conns w))) p
            (register (new_client sessionID rand (length (conns w))) p (Upgrade w).1)).
Proof.
  intros [S1 S2 S3] Hp.
  pose proof (λ q id c, member_joined sessionID rand p w q id c Hp) as Hmem.
  set (client := new_client sessionID rand (length (conns w))) in *.
  constructor.
  - intros id c Hc. cbn in Hc. apply lookup_insert_Some in Hc as [[<- <-]|[_ Hc]]; eauto.
  - intros id c Hc. cbn in Hc |- *.
    apply lookup_insert_Some in Hc as [[<- <-]|[_ Hc]].
    + exists (length (goroutines w)), p. rewrite lookup_app_r by lia.
      by rewrite Nat.sub_diag.
    + destruct (S2 id c Hc) as (g & sp & Hg). exists g, sp. by apply lookup_app_l_Some.
  - intros q id c [(-> & -> & ->)|[Hm _]]%Hmem; cbn.
    + exists (length (goroutines w)). rewrite lookup_app_r by lia.
      by rewrite Nat.sub_diag.
    + destruct (S3 q id c Hm) as (g & Hg). exists g. by apply lookup_app_l_Some.
Qed.

Lemma served_leave g c sp w :
  world_wf w → served w → goroutines w !! g = Some (Some (c, sp)) →
  served (leave c sp (set_goroutines w (<[g := None]> (goroutines w)))).
Proof.
  intros Hwf [S1 S2 S3] Hg.
  set (w0 := set_goroutines w (<[g := None]> (goroutines w))).
  apply (served_skeleton (unregister c sp (close_conn (Client.Conn c) w0))).
  { unfold leave. cbn zeta. destruct (heap _ !! sp); [|done]. apply broadcast_store. }
  { unfold leave. cbn zeta. destruct (heap _ !! sp); [|done]. apply broadcast_heap. }
  { unfold leave. cbn zeta. destruct (heap _ !! sp); [|done]. apply broadcast_goroutines. }
  assert (Hmem : ∀ q id c', member (unregister c sp (close_conn (Client.Conn c) w0)) q id c'
                  ↔ member w q id c' ∧ ¬ (q = sp ∧ id = Client.ID c)).
  { intros q id c'. rewrite member_unregister. by destruct (Client.Conn c). }
  assert (Hst : store (close_conn (Client.Conn c) w0) = store w)
    by (by destruct (Client.Conn c)).
  assert (Hgs : goroutines (unregister c sp (close_conn (Client.Conn c) w0))
                = <[g := None]> (goroutines w))
    by (by destruct (Client.Conn c)).
  constructor.
  - intros id c' Hc. cbn in Hc. rewrite Hst in Hc.
    apply lookup_delete_Some in Hc as [_ Hc]. eauto.
  - intros id c' Hc. cbn in Hc. rewrite Hst in Hc.
    apply lookup_delete_Some in Hc as [Hne Hc].
    destruct (S2 id c' Hc) as (g' & sp' & Hg'). exists g', sp'. rewrite Hgs.
    rewrite list_lookup_insert_ne; [done|]. intros <-.
    apply Hne. rewrite <- (S1 id c' Hc). congruence.
  - intros q id c' [Hm Hne]%Hmem.
    destruct (S3 q id c' Hm) as (g' & Hg'). exists g'. rewrite Hgs.
    rewrite list_lookup_insert_ne; [done|]. intros <-.
    apply Hne. destruct (wf_key _ Hwf _ _ _ Hm) as [<- _]. split; congruence.
Qed.

Lemma served_step op w : world_wf w → served w → served (step op w).
Proof.
  intros Hwf Hsv.
  destruct op as [req rand now|id|sessionID upgrade_ok rand|g message|g]; cbn.
  - destruct (ShouldBindJSON req) as [err|name] eqn:Hreq.
    + by rewrite (createSession_invalid _ _ _ _ _ Hreq).
    + rewrite (createSession_valid _ _ _ _ _ Hreq). by apply served_created.
  - destruct (InMemoryStore.Sessions (store w) !! id) as [p|] eqn:Hr.
    + destruct (wf_registered _ Hwf _ _ Hr) as (s & Hs & _).
      rewrite (deleteSession_registered _ _ _ _ Hr Hs). by apply served_deleted.
    + by rewrite deleteSession_unregistered.
  - destruct upgrade_ok.
    + destruct (InMemoryStore.Sessions (store w) !! sessionID) as [p|] eqn:Hr.
      * destruct (wf_registered _ Hwf _ _ Hr) as (s & Hs%lookup_lt_Some & _).
        rewrite (handleWebSocket_joined _ _ _ _ Hr). cbn zeta.
        eapply served_skeleton; [..|by apply (served_join sessionID rand p w)]; cbn.
        -- by rewrite broadcast_store.
        -- by rewrite broadcast_heap.
        -- by rewrite broadcast_goroutines.
      * by rewrite handleWebSocket_not_found.
    + unfold handleWebSocket. by destruct (InMemoryStore.Sessions (store w) !! sessionID).
  - destruct (goroutines w !! g) as [[[c sp]|]|]; try done.
    destruct (relay_skeleton c sp message w) as (Hst & Hh & Hg & _).
    by apply (served_skeleton w).
  - destruct (goroutines w !! g) as [[[c sp]|]|] eqn:Hg; try done.
    by apply served_leave.
Qed.

Lemma served_run ops w : world_wf w → served w → served (run ops w).
Proof.
  revert w. induction ops as [|op ops IH]; intros w Hwf Hsv; [done|].
  apply IH; [by apply world_wf_step|by apply served_step].
Qed.

(** ** The frontend and the events of the server *)

Lemma onmessage_later m st :
  later_event m →
  onmessage m st = {| clientId := clientId st; messages := messages st ++ [log_line m] |}
  ∧ is_Some (Payload m !! "clientId").
Proof.
  intros [(cid & ->)|[(cid & ->)|(cid & data & ->)]];
    (split; [reflexivity|]); cbn; by rewrite lookup_insert_eq.
Qed.

Lemma receive_later ms st :
  Forall later_event ms →
  receive ms st = {| clientId := clientId st; messages := messages st ++ (log_line <$> ms) |}.
Proof.
  intros Hms. revert st. induction Hms as [|m ms Hm _ IH]; intros st.
  - cbn. rewrite app_nil_r. by destruct st.
  - unfold receive in *. cbn [foldl]. destruct (onmessage_later m st Hm) as [-> _].
    rewrite IH. cbn. by rewrite <- app_assoc.
Qed.

Lemma receive_greeted c st :
  greeted c →
  ∃ sessionID clientID rest,
    written c = session_joined sessionID clientID :: rest
    ∧ receive (written c) st
      = {| clientId := Some clientID; messages := messages st ++ (log_line <$> rest) |}.
Proof.
  intros (sid & cid & rest & Hw & Hrest). exists sid, cid, rest. split; [done|].
  rewrite Hw. unfold receive. cbn [foldl]. fold (receive rest (onmessage (session_joined sid cid) st)).
  rewrite receive_later by done. f_equal.
Qed.

(** * The claims *)

(** A state [run ops NewWorld] is what the server has reached after any
    sequence of handler invocations, whatever the random source and the
    clients do; C5 and C9 hold in any state whatsoever. *)



(** C2, as the code has it. From the empty registry, after any sequence
    of whole handler runs (session creation, deletion, joins, relayed
    messages, disconnects) in which no generated session id is already
    registered and no generated client id was generated before, every
    registered session's participant map has exactly the ids that the
    global index files under that session, and every entry of the
    global index is a participant of a registered session. *)
Theorem registry_consistent_when_ids_are_fresh ops :
  fresh_run ops NewWorld [] = true →
  registry_consistent (run ops NewWorld).
Proof.
  intros Hfresh.
  destruct (ids_wf_run ops NewWorld [] world_wf_new ids_wf_new Hfresh) as [used Hids].
  eapply ids_wf_consistent; [|done]. apply world_wf_run, world_wf_new.
Qed.

Lemma registry_consistent_when_ids_are_fresh_witness :
  registry_consistent (run busy_run NewWorld).
Proof.
  apply registry_consistent_when_ids_are_fresh. vm_compute. reflexivity.
Defined.

(** Ids are drawn at random and never compared with those in use.  When
    a client that joins "Other" draws the id of a client of "Demo", the
    global index files that id under "Other" only, and the participant
    map of "Demo" has an id that the index does not file under it. *)
Lemma colliding_ids_break_consistency :
  heap shared_id !! 0 = Some lone_session
  ∧ InMemoryStore.Sessions (store shared_id) !! "id_ssssssss" = Some 0
  ∧ InMemoryStore.Clients (store shared_id) !! "id_aaaaaaaa" = Some clientA_other
  ∧ ¬ registry_consistent shared_id.
Proof.
  split; [vm_compute; reflexivity|]. split; [vm_compute; reflexivity|].
  split; [vm_compute; reflexivity|].
  intros [Hdom _].
  assert ("id_aaaaaaaa" ∈ dom (Session.Clients lone_session)) as Hin.
  { apply elem_of_dom. exists clientA. vm_compute. reflexivity. }
  rewrite (Hdom "id_ssssssss" 0 lone_session) in Hin;
    [|vm_compute; reflexivity|vm_compute; reflexivity].
  apply elem_of_dom in Hin as [c Hc]. vm_compute in Hc. discriminate.
Qed.

(** C3. deleteSession on a registered session answers 204, closes the
    connection of every participant of the session, removes the session
    from the sessions map and every participant from the global index;
    when the registry is consistent, no entry of the index is filed
    under the deleted id any more. *)
Theorem deleteSession_leaves_nothing_behind ops id p s :
  let w := run ops NewWorld in
  registered w id p → heap w !! p = Some s →
  let w' := (deleteSession id w).1 in
  status (deleteSession id w).2 = StatusNoContent
  ∧ InMemoryStore.Sessions (store w') = delete id (InMemoryStore.Sessions (store w))
  ∧ InMemoryStore.Sessions (store w') !! id = None
  ∧ (∀ cid c, Session.Clients s !! cid = Some c →
       (∃ k, Client.Conn c = Some k ∧ is_closed w' k)
       ∧ InMemoryStore.Clients (store w') !! cid = None)
  ∧ (registry_consistent w → index_of w' id = ∅).
Proof.
  intros w Hr Hs. apply (deleteSession_effect w id p s); try done.
  apply world_wf_run, world_wf_new.
Qed.

Lemma deleteSession_leaves_nothing_behind_witness :
  status (deleteSession "id_ssssssss" two_joined).2 = StatusNoContent
  ∧ is_closed (deleteSession "id_ssssssss" two_joined).1 0
  ∧ is_closed (deleteSession "id_ssssssss" two_joined).1 1
  ∧ store (deleteSession "id_ssssssss" two_joined).1 = NewInMemoryStore.
Proof.
  destruct (deleteSession_leaves_nothing_behind
              [OpCreateSession (Some "Demo") rS 1700000000%Z;
               OpWebSocket "id_ssssssss" true rA;
               OpWebSocket "id_ssssssss" true rB]
              "id_ssssssss" 0 demo_session)
    as (Hstatus & _ & _ & Hmembers & _).
  - vm_compute. reflexivity.
  - vm_compute. reflexivity.
  - split; [exact Hstatus|].
    destruct (Hmembers "id_aaaaaaaa" clientA) as [(ka & Hka & Ha) _];
      [vm_compute; reflexivity|].
    destruct (Hmembers "id_bbbbbbbb" clientB) as [(kb & Hkb & Hb) _];
      [vm_compute; reflexivity|].
    injection Hka as <-. injection Hkb as <-.
    split; [exact Ha|]. split; [exact Hb|]. vm_compute. reflexivity.
Defined.

(** C4, as the code has it. When the goroutine of a connection ends and
    its client id is already in neither the global index nor any
    registered session, the deferred cleanup changes neither map and no
    registered session and closes the connection.  In a run in which no
    generated id was generated before, no session is registered under
    the id of its session any more, and nothing is written to any other
    connection.  Nothing in the code checks this: when a session is
    registered under that id, every client of it is sent [client_left]
    once more. *)
Theorem leave_when_already_absent ops g c sp s :
  let w := run ops NewWorld in
  goroutines w !! g = Some (Some (c, sp)) → heap w !! sp = Some s →
  InMemoryStore.Clients (store w) !! Client.ID c = None →
  (∀ sid q s', registered w sid q → heap w !! q = Some s' →
     Session.Clients s' !! Client.ID c = None) →
  let w' := leave c sp w in
  store w' = store w
  ∧ (∀ sid q, registered w sid q → heap w' !! q = heap w !! q)
  ∧ (∃ k, Client.Conn c = Some k ∧ is_closed w' k
          ∧ (InMemoryStore.Sessions (store w) !! Session.ID s = None →
             ∀ j, j ≠ k → conns w' !! j = conns w !! j))
  ∧ (unique_run ops NewWorld [] [] = true →
     InMemoryStore.Sessions (store w) !! Session.ID s = None)
  ∧ (∀ q s', registered w (Session.ID s) q → heap w !! q = Some s' →
     ∀ cid c', Session.Clients s' !! cid = Some c' →
       ∃ j, Client.Conn c' = Some j
            ∧ outbox w' j = outbox w j ++ [client_left (Client.ID c)]).
Proof.
  intros w Hg Hs Hindex Hsessions.
  assert (world_wf w) as Hwf by apply world_wf_run, world_wf_new.
  destruct (wf_goroutine _ Hwf _ _ _ Hg) as (_ & _ & k & Hk & Hlt & Hown).
  destruct (leave_absent_effect w c sp s k Hwf Hs Hk Hlt Hown Hindex Hsessions)
    as (Hstore & Hheap & Hclosed & Hleft & Hquiet).
  split; [done|]. split; [done|]. split; [|split; [|done]].
  - exists k. by repeat split.
  - intros Hu. by apply (absent_means_unregistered ops g c sp s).
Qed.

Lemma leave_when_already_absent_witness :
  (store (leave clientA' 0 first_left) = store first_left
   ∧ outbox (leave clientA' 0 first_left) 2
     = outbox first_left 2 ++ [client_left "id_aaaaaaaa"])
  ∧ (unique_run join_then_delete NewWorld [] [] = true
     ∧ store (leave clientA 0 after_delete) = store after_delete
     ∧ ∀ j, j ≠ 0 → conns (leave clientA 0 after_delete) !! j = conns after_delete !! j).
Proof.
  split.
  - destruct (leave_when_already_absent (same_id_twice ++ [OpDisconnect 0])
                1 clientA' 0 watcher_session)
      as (Hstore & _ & _ & _ & Hleft).
    + vm_compute. reflexivity.
    + vm_compute. reflexivity.
    + vm_compute. reflexivity.
    + intros sid q s' Hr Hs'. unfold registered in Hr.
      destruct (decide (sid = "id_ssssssss")) as [->|Hne].
      * vm_compute in Hr. injection Hr as <-. vm_compute in Hs'.
        injection Hs' as <-. vm_compute. reflexivity.
      * change (InMemoryStore.Sessions
                  (store (run (same_id_twice ++ [OpDisconnect 0]) NewWorld)))
          with (<["id_ssssssss" := 0]> (∅ : gmap string nat)) in Hr.
        rewrite lookup_insert_ne in Hr by done. by rewrite lookup_empty in Hr.
    + split; [exact Hstore|].
      assert (registered first_left (Session.ID watcher_session) 0) as Hr
        by (vm_compute; reflexivity).
      assert (heap first_left !! 0 = Some watcher_session) as Hs
        by (vm_compute; reflexivity).
      assert (Session.Clients watcher_session !! "id_bbbbbbbb" = Some clientB2) as Hc
        by (vm_compute; reflexivity).
      destruct (Hleft 0 watcher_session Hr Hs "id_bbbbbbbb" clientB2 Hc)
        as (j & Hj & Hout).
      injection Hj as <-. exact Hout.
  - destruct (leave_when_already_absent join_then_delete 0 clientA 0 demo_session)
      as (Hstore & _ & (k & Hk & _ & Hquiet) & Hgone & _).
    + vm_compute. reflexivity.
    + vm_compute. reflexivity.
    + vm_compute. reflexivity.
    + intros sid q s' Hr. unfold registered in Hr.
      assert (InMemoryStore.Sessions (store (run join_then_delete NewWorld)) = ∅)
        as Hnone by (vm_compute; reflexivity).
      rewrite Hnone, lookup_empty in Hr. discriminate Hr.
    + assert (unique_run join_then_delete NewWorld [] [] = true) as Hunique
        by (vm_compute; reflexivity).
      split; [exact Hunique|]. split; [exact Hstore|].
      injection Hk as <-. apply Hquiet, Hgone, Hunique.
Defined.

(** The cleanup is not idempotent.  Two clients of one session drew the
    same id.  After the first has left, that id is in neither map and
    the third participant has been told once; the goroutine of the
    second is still live, and its cleanup tells the third participant a
    second time. *)
Lemma second_leave_broadcasts_again :
  InMemoryStore.Clients (store first_left) !! "id_aaaaaaaa" = None
  ∧ heap first_left !! 0 = Some watcher_session
  ∧ Session.Clients watcher_session !! "id_aaaaaaaa" = None
  ∧ goroutines first_left !! 1 = Some (Some (clientA', 0))
  ∧ outbox first_left 2
    = [session_joined "id_ssssssss" "id_bbbbbbbb"; client_left "id_aaaaaaaa"]
  ∧ outbox (leave clientA' 0 first_left) 2
    = [session_joined "id_ssssssss" "id_bbbbbbbb"; client_left "id_aaaaaaaa";
       client_left "id_aaaaaaaa"]
  ∧ leave clientA' 0 first_left ≠ first_left.
Proof.
  vm_compute. repeat split; try reflexivity. discriminate.
Qed.

(** C5. A join on a session id that is not registered is answered 404
    "Session not found" before the connection is upgraded: the world is
    left as it was, with no new entry in the global index or in any
    session, no new connection and no new goroutine. *)
Theorem handleWebSocket_unknown_session w sessionID upgrade_ok rand :
  InMemoryStore.Sessions (store w) !! sessionID = None →
  let w' := (handleWebSocket sessionID upgrade_ok rand w).1 in
  (handleWebSocket sessionID upgrade_ok rand w).2
  = WsNotFound {| status := StatusNotFound; body := BodyError "Session not found" |}
  ∧ w' = w
  ∧ InMemoryStore.Clients (store w') = InMemoryStore.Clients (store w)
  ∧ (∀ q id c, member w' q id c → member w q id c)
  ∧ conns w' = conns w
  ∧ goroutines w' = goroutines w.
Proof.
  intros Hr w'. subst w'. unfold handleWebSocket. rewrite Hr. cbn [fst snd].
  repeat split; done.
Qed.

Lemma handleWebSocket_unknown_session_witness :
  (handleWebSocket "id_zzzzzzzz" true rD two_joined).2
  = WsNotFound {| status := StatusNotFound; body := BodyError "Session not found" |}
  ∧ (handleWebSocket "id_zzzzzzzz" true rD two_joined).1 = two_joined.
Proof.
  destruct (handleWebSocket_unknown_session two_joined "id_zzzzzzzz" true rD)
    as (Hresult & Hsame & _).
  - vm_compute. reflexivity.
  - split; [exact Hresult|exact Hsame].
Defined.

(** C6. A join into a registered session registers the new client,
    writes [session_joined], with the session id and the new client id,
    once to the new connection and to no other; it writes
    [client_joined] with the new id once to the connection of every
    other participant of that session, and nothing to any other
    connection. *)
Theorem handleWebSocket_announces ops sessionID p s rand :
  let w := run ops NewWorld in
  registered w sessionID p → heap w !! p = Some s →
  let w' := (handleWebSocket sessionID true rand w).1 in
  let id := generateID rand in
  let conn := length (conns w) in
  (handleWebSocket sessionID true rand w).2
  = WsJoined (new_client sessionID rand conn) p
  ∧ InMemoryStore.Clients (store w') !! id = Some (new_client sessionID rand conn)
  ∧ member w' p id (new_client sessionID rand conn)
  ∧ outbox w' conn = [session_joined sessionID id]
  ∧ (∀ cid c, Session.Clients s !! cid = Some c → cid ≠ id →
       ∃ j, Client.Conn c = Some j ∧ outbox w' j = outbox w j ++ [client_joined id])
  ∧ (∀ j, j < conn →
       (∀ cid c, Session.Clients s !! cid = Some c → Client.Conn c = Some j → cid = id) →
       outbox w' j = outbox w j)
  ∧ (∀ q cid c j, q ≠ p → member w q cid c → Client.Conn c = Some j →
       outbox w' j = outbox w j).
Proof.
  intros w Hr Hs. apply (handleWebSocket_effect w sessionID p s rand); try done.
  apply world_wf_run, world_wf_new.
Qed.

Lemma handleWebSocket_announces_witness :
  outbox (handleWebSocket "id_ssssssss" true rB one_joined).1 1
  = [session_joined "id_ssssssss" "id_bbbbbbbb"]
  ∧ outbox (handleWebSocket "id_ssssssss" true rB one_joined).1 0
    = outbox one_joined 0 ++ [client_joined "id_bbbbbbbb"].
Proof.
  destruct (handleWebSocket_announces
              [OpCreateSession (Some "Demo") rS 1700000000%Z;
               OpWebSocket "id_ssssssss" true rA]
              "id_ssssssss" 0 lone_session rB)
    as (_ & _ & _ & Hnew & Hothers & _).
  - vm_compute. reflexivity.
  - vm_compute. reflexivity.
  - split; [exact Hnew|].
    destruct (Hothers "id_aaaaaaaa" clientA) as (j & Hj & Hout).
    + vm_compute. reflexivity.
    + discriminate.
    + injection Hj as <-. exact Hout.
Defined.

(** C7, as the code has it. A relay is dropped, leaving the world as it
    was, when no session is registered under the id of the sender's
    session; in a run in which no generated id was generated before,
    that is the case whenever the id of a sender that is still reading
    is gone from the global index.  Whether the sender itself is still
    in the registry is never looked at: when a session is registered
    under that id, every client in it other than the sender's id gets
    the payload once. *)
Theorem relay_dropped_when_session_unregistered ops c sp s data :
  let w := run ops NewWorld in
  heap w !! sp = Some s →
  (InMemoryStore.Sessions (store w) !! Session.ID s = None →
   relay c sp data w = w)
  ∧ (unique_run ops NewWorld [] [] = true →
     ∀ g, goroutines w !! g = Some (Some (c, sp)) →
       InMemoryStore.Clients (store w) !! Client.ID c = None →
       relay c sp data w = w)
  ∧ (∀ q s', registered w (Session.ID s) q → heap w !! q = Some s' →
     ∀ cid c', Session.Clients s' !! cid = Some c' → cid ≠ Client.ID c →
       ∃ j, Client.Conn c' = Some j
            ∧ outbox (relay c sp data w) j
              = outbox w j ++ [screen_data (Client.ID c) data]).
Proof.
  intros w Hs. destruct (relay_effect w c sp s data Hs) as [Hdrop Hsend].
  split; [done|]. split.
  - intros Hu g Hg Hindex. apply Hdrop.
    by apply (absent_means_unregistered ops g c sp s).
  - apply Hsend. apply world_wf_run, world_wf_new.
Qed.

Lemma relay_dropped_when_session_unregistered_witness :
  InMemoryStore.Clients (store after_delete) !! "id_aaaaaaaa" = None
  ∧ relay clientA 0 "late" after_delete = after_delete.
Proof.
  destruct (relay_dropped_when_session_unregistered join_then_delete
              clientA 0 demo_session "late") as (_ & Habsent & _).
  - vm_compute. reflexivity.
  - split; [vm_compute; reflexivity|].
    apply (Habsent ltac:(vm_compute; reflexivity) 0); vm_compute; reflexivity.
Defined.

(** The sender is not looked up.  Two clients of one session drew the
    same id.  After the second has left, that id is in neither map, yet
    the goroutine of the first is still reading; what it relays reaches
    the third participant. *)
Lemma relay_from_absent_sender_is_delivered :
  InMemoryStore.Clients (store second_left) !! "id_aaaaaaaa" = None
  ∧ heap second_left !! 0 = Some watcher_session
  ∧ Session.Clients watcher_session !! "id_aaaaaaaa" = None
  ∧ goroutines second_left !! 0 = Some (Some (clientA, 0))
  ∧ outbox (relay clientA 0 "late" second_left) 2
    = outbox second_left 2 ++ [screen_data "id_aaaaaaaa" "late"]
  ∧ relay clientA 0 "late" second_left ≠ second_left.
Proof.
  vm_compute. repeat split; try reflexivity. discriminate.
Qed.



(** C9, as the code has it. createSession fails, with 400, exactly on a
    missing or empty name; otherwise it answers 201 with a session that
    has the generated id, the given name and an empty participant map,
    and stores it under the generated id, whether or not that id was
    already registered; the other session objects, the global index and
    the connections are left as they were. *)
Theorem createSession_stores_under_generated_id req rand now w :
  let id := generateID rand in
  let w' := (createSession req rand now w).1 in
  match req with
  | Some name =>
      if decide (name = EmptyString)
      then status (createSession req rand now w).2 = StatusBadRequest ∧ w' = w
      else
        (createSession req rand now w).2
        = {| status := StatusCreated;
             body := BodySession {| Session.ID := id; Session.Name := name;
                                    Session.CreatedAt := now;
                                    Session.Clients := ∅ |} |}
        ∧ InMemoryStore.Sessions (store w')
          = <[id := length (heap w)]> (InMemoryStore.Sessions (store w))
        ∧ heap w' !! length (heap w)
          = Some {| Session.ID := id; Session.Name := name;
                    Session.CreatedAt := now; Session.Clients := ∅ |}
        ∧ (∀ q, q < length (heap w) → heap w' !! q = heap w !! q)
        ∧ InMemoryStore.Clients (store w') = InMemoryStore.Clients (store w)
        ∧ conns w' = conns w
  | None => status (createSession req rand now w).2 = StatusBadRequest ∧ w' = w
  end.
Proof.
  intros id w'. subst w'. unfold createSession, ShouldBindJSON.
  destruct req as [name|]; [|done].
  destruct (decide (name = EmptyString)) as [->|Hname]; [done|].
  cbn [fst snd store heap conns InMemoryStore.Sessions InMemoryStore.Clients].
  split; [done|]. split; [done|]. split.
  { rewrite lookup_app_r by lia. by rewrite Nat.sub_diag. }
  split; [|done]. intros q Hq. by rewrite lookup_app_l.
Qed.

(** The id of a new session is not checked against the sessions map:
    with the draws that produced the id of a registered session,
    createSession answers 201 and the registered session, with its two
    participants, is replaced in the map by an empty one. *)
Lemma createSession_id_not_fresh :
  InMemoryStore.Sessions (store two_joined) !! generateID rS = Some 0
  ∧ heap two_joined !! 0 = Some demo_session
  ∧ status (createSession (Some "Again") rS 1700000002%Z two_joined).2 = StatusCreated
  ∧ InMemoryStore.Sessions
      (store (createSession (Some "Again") rS 1700000002%Z two_joined).1)
      !! generateID rS = Some 1
  ∧ heap (createSession (Some "Again") rS 1700000002%Z two_joined).1 !! 1
    = Some {| Session.ID := "id_ssssssss"; Session.Name := "Again";
              Session.CreatedAt := 1700000002%Z; Session.Clients := ∅ |}.
Proof. vm_compute. repeat split; reflexivity. Qed.

(** C10, as the code has it. deleteSession on a registered session
    changes no other entry of the sessions map and no session object; in
    the global index it deletes the keys of the deleted session's
    participant map and nothing else, and adds nothing.  When the
    registry is consistent, every entry filed under another session id
    is therefore left unchanged. *)
Theorem deleteSession_touches_nothing_else ops id p s :
  let w := run ops NewWorld in
  registered w id p → heap w !! p = Some s →
  let w' := (deleteSession id w).1 in
  (∀ sid, sid ≠ id →
     InMemoryStore.Sessions (store w') !! sid = InMemoryStore.Sessions (store w) !! sid)
  ∧ heap w' = heap w
  ∧ (∀ cid, cid ∉ dom (Session.Clients s) →
       InMemoryStore.Clients (store w') !! cid = InMemoryStore.Clients (store w) !! cid)
  ∧ (∀ cid c, InMemoryStore.Clients (store w') !! cid = Some c →
       InMemoryStore.Clients (store w) !! cid = Some c)
  ∧ (registry_consistent w →
     ∀ cid c, InMemoryStore.Clients (store w) !! cid = Some c →
       Client.SessionID c ≠ id → InMemoryStore.Clients (store w') !! cid = Some c).
Proof.
  intros w Hr Hs. apply (deleteSession_frame w id p s); try done.
  apply world_wf_run, world_wf_new.
Qed.

Lemma deleteSession_touches_nothing_else_witness :
  InMemoryStore.Sessions (store (deleteSession "id_ssssssss" two_sessions).1) !! "id_cccccccc"
  = Some 1
  ∧ heap (deleteSession "id_ssssssss" two_sessions).1 = heap two_sessions
  ∧ InMemoryStore.Clients (store (deleteSession "id_ssssssss" two_sessions).1) !! "id_dddddddd"
    = Some clientD.
Proof.
  destruct (deleteSession_touches_nothing_else two_sessions_ops "id_ssssssss" 0 demo_session)
    as (Hsessions & Hheap & _ & _ & Hkept).
  - vm_compute. reflexivity.
  - vm_compute. reflexivity.
  - split; [|split].
    + unfold two_sessions. rewrite Hsessions by discriminate. vm_compute. reflexivity.
    + exact Hheap.
    + apply Hkept; [apply two_sessions_consistent|vm_compute; reflexivity|discriminate].
Defined.

(** The loop of deleteSession deletes index entries by client id alone.
    When a client of "Other" drew the id of a client of "Demo", deleting
    "Demo" deletes the index entry of the client of "Other". *)
Lemma deleteSession_deletes_entry_of_other_session :
  InMemoryStore.Sessions (store shared_id) !! "id_ssssssss" = Some 0
  ∧ InMemoryStore.Clients (store shared_id) !! "id_aaaaaaaa" = Some clientA_other
  ∧ Client.SessionID clientA_other = "id_cccccccc"
  ∧ InMemoryStore.Sessions (store (deleteSession "id_ssssssss" shared_id).1) !! "id_cccccccc"
    = Some 1
  ∧ InMemoryStore.Clients (store (deleteSession "id_ssssssss" shared_id).1) !! "id_aaaaaaaa"
    = None.
Proof. vm_compute. repeat split; reflexivity. Qed.

(** * Further properties of the handlers *)

Lemma append_3 a b c (s : string) :
  String a (String b (String c EmptyString)) +:+ s = String a (String b (String c s)).
Proof. reflexivity. Qed.

Lemma substring_3 a b c (s : string) :
  String.substring 0 3 (String a (String b (String c s)))
  = String a (String b (String c EmptyString)).
Proof. by destruct s. Qed.

(** X1. randomString returns a string of exactly the requested length
    (the empty string for length 0), and every character of it is a
    character of the charset. *)
Theorem randomString_length_and_alphabet n rand :
  String.length (randomString n rand) = n
  ∧ ∀ c, c ∈ String.list_ascii_of_string (randomString n rand) →
         c ∈ String.list_ascii_of_string charset.
Proof. apply randomString_from_spec. Qed.

(** X2. An id is "id_" followed by eight characters, eleven in all, and
    never the empty string.  Two calls of generateID return the same id
    exactly when their eight draws agree (the charset has no repeated
    character). *)
Theorem generateID_equal_iff_draws_agree r1 r2 :
  String.length (generateID r1) = 11
  ∧ String.substring 0 3 (generateID r1) = "id_"
  ∧ generateID r1 ≠ EmptyString
  ∧ (generateID r1 = generateID r2
     ↔ ∀ i, i < 8 → r1 i mod String.length charset = r2 i mod String.length charset).
Proof.
  unfold generateID, randomString.
  destruct (randomString_from_spec 0 8 r1) as [Hlen _].
  rewrite !append_3.
  split; [cbn [String.length]; by rewrite Hlen|].
  split; [by rewrite substring_3|]. split; [done|].
  rewrite <- (randomString_from_inj 0 8 r1 r2). split.
  - intros Heq. by injection Heq.
  - by intros ->.
Qed.

(** X3. In every state the handlers can reach, getSessions answers 200
    with one entry for each registered session: as many entries as the
    sessions map has keys, no id twice, the ids exactly the keys of the
    map, and a session is listed exactly when getSession returns it
    under its id. *)
Theorem getSessions_lists_the_registered_sessions ops :
  let w := run ops NewWorld in
  list_status (getSessions w) = StatusOK
  ∧ length (sessions (getSessions w)) = size (InMemoryStore.Sessions (store w))
  ∧ NoDup (Session.ID <$> sessions (getSessions w))
  ∧ (∀ id, id ∈ (Session.ID <$> sessions (getSessions w))
           ↔ is_Some (InMemoryStore.Sessions (store w) !! id))
  ∧ (∀ s, s ∈ sessions (getSessions w)
          ↔ getSession (Session.ID s) w
            = {| status := StatusOK; body := BodySession s |}).
Proof. intros w. apply getSessions_spec, world_wf_run, world_wf_new. Qed.

(** X4. A session that createSession has answered with 201 is what
    getSession returns under the generated id right afterwards, and
    getSessions lists it; the answer of getSession for every other id is
    as before. *)
Theorem getSession_returns_the_created_session ops name rand now :
  name ≠ EmptyString →
  let w := run ops NewWorld in
  let w' := (createSession (Some name) rand now w).1 in
  let r := (createSession (Some name) rand now w).2 in
  status r = StatusCreated
  ∧ getSession (generateID rand) w' = {| status := StatusOK; body := body r |}
  ∧ (∃ s, body r = BodySession s ∧ s ∈ sessions (getSessions w'))
  ∧ (∀ id, id ≠ generateID rand → getSession id w' = getSession id w).
Proof.
  intros Hname w. apply createSession_getSession; [|done].
  apply world_wf_run, world_wf_new.
Qed.

Lemma getSession_returns_the_created_session_witness :
  getSession "id_ssssssss" (createSession (Some "Demo") rS 1700000000%Z NewWorld).1
  = {| status := StatusOK; body := BodySession empty_demo |}.
Proof.
  destruct (getSession_returns_the_created_session [] "Demo" rS 1700000000%Z)
    as (_ & Hget & _).
  - discriminate.
  - exact Hget.
Defined.

(** X5. After deleteSession on an id, in every reachable state, the
    session is gone for every handler: getSession answers 404, a second
    deleteSession answers 404 and changes nothing, a WebSocket request
    for it is refused with 404, getSessions does not list it; the
    answer of getSession for every other id is as before. *)
Theorem deleted_session_is_gone_for_every_handler ops id upgrade_ok rand :
  let w := run ops NewWorld in
  let w' := (deleteSession id w).1 in
  let not_found := {| status := StatusNotFound; body := BodyError "Session not found" |} in
  getSession id w' = not_found
  ∧ deleteSession id w' = (w', not_found)
  ∧ handleWebSocket id upgrade_ok rand w' = (w', WsNotFound not_found)
  ∧ (∀ s, s ∈ sessions (getSessions w') → Session.ID s ≠ id)
  ∧ (∀ id', id' ≠ id → getSession id' w' = getSession id' w).
Proof. intros w. apply deleteSession_gone, world_wf_run, world_wf_new. Qed.

(** X6. Joins, relayed messages and disconnects do not show in the HTTP
    answers: after any number of them, from any state, getSession
    answers every id with the same status and the same JSON as before,
    and getSessions lists the same sessions ([Clients] is not part of
    the JSON of a session). *)
Theorem traffic_does_not_show_in_the_answers ops w :
  forallb is_traffic ops = true →
  (∀ id, response_json (getSession id (run ops w)) = response_json (getSession id w))
  ∧ session_json <$> sessions (getSessions (run ops w))
    = session_json <$> sessions (getSessions w).
Proof. apply traffic_answers. Qed.

Lemma traffic_does_not_show_in_the_answers_witness :
  response_json (getSession "id_ssssssss" (run traffic_only one_joined))
  = (StatusOK, JSONSession {| json_id := "id_ssssssss"; json_name := "Demo";
                              json_createdAt := 1700000000%Z |})
  ∧ Session.Clients <$> heap one_joined !! 0 = Some (<["id_aaaaaaaa" := clientA]> ∅)
  ∧ Session.Clients <$> heap (run traffic_only one_joined) !! 0
    = Some (<["id_bbbbbbbb" := clientB]> ∅).
Proof.
  destruct (traffic_does_not_show_in_the_answers traffic_only one_joined)
    as [Hget _].
  - reflexivity.
  - split; [|split].
    + rewrite Hget. vm_compute. reflexivity.
    + vm_compute. reflexivity.
    + vm_compute. reflexivity.
Defined.

(** X7. deleteSession tells nobody: it writes to no connection, it
    neither adds nor removes a connection, and it stops no goroutine.
    Of the connections it changes only those of the clients of the
    deleted session, which it closes; on an id that is not registered it
    changes nothing at all. *)
Theorem deleteSession_writes_to_no_connection id w :
  let w' := (deleteSession id w).1 in
  (∀ k, outbox w' k = outbox w k)
  ∧ length (conns w') = length (conns w)
  ∧ goroutines w' = goroutines w
  ∧ (∀ p s k, registered w id p → heap w !! p = Some s →
       (∀ cid c, Session.Clients s !! cid = Some c → Client.Conn c ≠ Some k) →
       conns w' !! k = conns w !! k)
  ∧ (InMemoryStore.Sessions (store w) !! id = None → w' = w).
Proof. apply deleteSession_conns. Qed.

(** X8. A client that joins a registered session under an id that is
    in use nowhere, sends any messages and disconnects leaves the
    registry as it was before the join: the sessions map, the global
    index and every session object are the same, and its connection is
    closed. *)
Theorem join_then_disconnect_restores_the_registry w sessionID p s rand inbound :
  registered w sessionID p → heap w !! p = Some s →
  InMemoryStore.Clients (store w) !! generateID rand = None →
  Session.Clients s !! generateID rand = None →
  let client := new_client sessionID rand (length (conns w)) in
  let w1 := (handleWebSocket sessionID true rand w).1 in
  let w2 := handleMessages client p inbound w1 in
  store w2 = store w ∧ heap w2 = heap w ∧ is_closed w2 (length (conns w)).
Proof. apply join_leave_registry. Qed.

Lemma join_then_disconnect_restores_the_registry_witness :
  store (handleMessages clientB 0 ["ping"]
           (handleWebSocket "id_ssssssss" true rB one_joined).1)
  = store one_joined
  ∧ heap (handleMessages clientB 0 ["ping"]
            (handleWebSocket "id_ssssssss" true rB one_joined).1)
    = heap one_joined.
Proof.
  destruct (join_then_disconnect_restores_the_registry
              one_joined "id_ssssssss" 0 lone_session rB ["ping"])
    as (Hstore & Hheap & _).
  - vm_compute. reflexivity.
  - vm_compute. reflexivity.
  - vm_compute. reflexivity.
  - vm_compute. reflexivity.
  - split; [exact Hstore|exact Hheap].
Defined.

(** X9. The goroutine of a connection relays in order: when its session
    is registered, every other client of the session has received, when
    the goroutine returns, the messages it read, each once and in the
    order read, followed by [client_left]. *)
Theorem handleMessages_relays_in_order ops g c sp s inbound :
  let w := run ops NewWorld in
  goroutines w !! g = Some (Some (c, sp)) → heap w !! sp = Some s →
  registered w (Session.ID s) sp →
  ∀ cid c', Session.Clients s !! cid = Some c' → cid ≠ Client.ID c →
    ∃ j, Client.Conn c' = Some j
         ∧ outbox (handleMessages c sp inbound w) j
           = outbox w j ++ (screen_data (Client.ID c) <$> inbound)
                        ++ [client_left (Client.ID c)].
Proof.
  intros w Hg Hs Hr cid c' Hc' Hne.
  assert (world_wf w) as Hwf by apply world_wf_run, world_wf_new.
  destruct (handleMessages_effect w g c sp s inbound Hwf Hg Hs)
    as (_ & _ & _ & _ & Hleft).
  destruct (relay_loop_delivers w c sp s inbound Hwf Hs Hr) as [Hloop _].
  destruct (Hleft Hr cid c' Hc' Hne) as (j & Hj & Hout).
  destruct (Hloop cid c' Hc' Hne) as (j' & Hj' & Hout').
  assert (j' = j) as -> by congruence.
  exists j. split; [done|]. by rewrite Hout, Hout', <- app_assoc.
Qed.

Lemma handleMessages_relays_in_order_witness :
  outbox (handleMessages clientA 0 ["one"; "two"] two_joined) 1
  = [session_joined "id_ssssssss" "id_bbbbbbbb";
     screen_data "id_aaaaaaaa" "one"; screen_data "id_aaaaaaaa" "two";
     client_left "id_aaaaaaaa"].
Proof.
  destruct (handleMessages_relays_in_order
              [OpCreateSession (Some "Demo") rS 1700000000%Z;
               OpWebSocket "id_ssssssss" true rA;
               OpWebSocket "id_ssssssss" true rB]
              0 clientA 0 demo_session ["one"; "two"])
    with (cid := "id_bbbbbbbb") (c' := clientB) as (j & Hj & Hout).
  - vm_compute. reflexivity.
  - vm_compute. reflexivity.
  - vm_compute. reflexivity.
  - vm_compute. reflexivity.
  - discriminate.
  - injection Hj as <-. unfold two_joined. rewrite Hout. vm_compute. reflexivity.
Defined.

(** X10. The server writes nothing but the four events: in every
    reachable state, what has been written to a connection is
    [session_joined] followed by [client_joined], [client_left] and
    [screen_data] events only. *)
Theorem connections_hold_only_events ops :
  let w := run ops NewWorld in
  Forall greeted (conns w) ∧ ∀ k, Forall is_event (outbox w k).
Proof.
  intros w.
  assert (Forall greeted (conns w)) as Hall.
  { apply Forall_lookup. intros k c Hk.
    destruct (conns_extend_run ops NewWorld) as [_ Hnew].
    apply (Hnew k c Hk). cbn. lia. }
  split; [done|]. intros k. unfold outbox.
  destruct (conns w !! k) as [c|] eqn:Hk; [|constructor].
  destruct (proj1 (Forall_lookup _ _) Hall k c Hk) as (sid & cid & rest & -> & Hrest).
  constructor; [left; eauto|]. eapply Forall_impl; [exact Hrest|]. by right.
Qed.

(** X11. No stored client is without its goroutine: in every reachable
    state, an entry of the global index or of the map of a session
    object is filed under the id of its client, and the goroutine that
    handleWebSocket started for that client has not returned. *)
Theorem stored_clients_are_served ops :
  let w := run ops NewWorld in
  (∀ id c, InMemoryStore.Clients (store w) !! id = Some c →
     Client.ID c = id ∧ ∃ g sp, goroutines w !! g = Some (Some (c, sp)))
  ∧ (∀ p id c, member w p id c →
       Client.ID c = id ∧ ∃ g, goroutines w !! g = Some (Some (c, p))).
Proof.
  intros w.
  assert (world_wf w) as Hwf by apply world_wf_run, world_wf_new.
  assert (served w) as [S1 S2 S3]
    by (apply served_run; [apply world_wf_new|apply served_new]).
  split.
  - intros id c Hc. split; eauto.
  - intros p id c Hm. split; [by destruct (wf_key _ Hwf _ _ _ Hm)|eauto].
Qed.

(** X12. Connections and goroutines go in pairs.  In every reachable
    state there are as many goroutines as upgraded connections, each
    goroutine that has not returned holds the connection upgraded with
    it, a goroutine that has returned has closed its connection, and so
    no connection is left open without a goroutine reading it. *)
Theorem open_connections_are_attended ops :
  let w := run ops NewWorld in
  length (goroutines w) = length (conns w)
  ∧ (∀ g c sp, goroutines w !! g = Some (Some (c, sp)) → Client.Conn c = Some g)
  ∧ (∀ g, goroutines w !! g = Some None → is_closed w g)
  ∧ (∀ k, is_open w k → ∃ c sp, goroutines w !! k = Some (Some (c, sp))).
Proof.
  intros w.
  assert (attended w) as [A1 A2 A3] by apply attended_run, attended_new.
  split; [done|]. split; [done|]. split; [done|].
  intros k Hk. unfold is_open in Hk.
  destruct (conns w !! k) as [cn|] eqn:Hcn; [|done].
  apply lookup_lt_Some in Hcn as Hlt. rewrite <- A1 in Hlt.
  apply lookup_lt_is_Some_2 in Hlt as [[[c sp]|] Hg]; [eauto|].
  specialize (A3 k Hg). unfold is_closed in A3. rewrite Hcn in *.
  cbn in *. congruence.
Qed.

(** X13. The loops over a Go map give the same result in whatever order
    the range visits the entries: the connections after the sends of
    broadcastToSession, and the connections and the index after the
    loop of deleteSession. *)
Theorem range_order_does_not_show message ex l1 l2 cs clients :
  l1 ≡ₚ l2 →
  broadcast_loop message ex l1 cs = broadcast_loop message ex l2 cs
  ∧ delete_loop l1 (cs, clients) = delete_loop l2 (cs, clients).
Proof.
  intros Hperm. split; [by apply broadcast_loop_order|by apply delete_loop_order].
Qed.

Lemma range_order_does_not_show_witness :
  broadcast_loop (client_left "id_cccccccc") EmptyString
    [("id_aaaaaaaa", clientA); ("id_bbbbbbbb", clientB)] (conns two_joined)
  = broadcast_loop (client_left "id_cccccccc") EmptyString
      [("id_bbbbbbbb", clientB); ("id_aaaaaaaa", clientA)] (conns two_joined).
Proof.
  destruct (range_order_does_not_show (client_left "id_cccccccc") EmptyString
              [("id_aaaaaaaa", clientA); ("id_bbbbbbbb", clientB)]
              [("id_bbbbbbbb", clientB); ("id_aaaaaaaa", clientA)]
              (conns two_joined) ∅) as [Hsame _].
  - apply perm_swap.
  - exact Hsame.
Defined.

(** X14. handleWebSocket does not look the session up again after it
    has released the lock.  When deleteSession removes the session
    between the lookup and the registration, the join still goes
    through: the client is filed in the global index and in the deleted
    session object, [session_joined] is written to its open connection,
    nobody else is told, and the index now has an entry whose session is
    not registered. *)
Theorem join_overtaken_by_deleteSession w sessionID p s rand :
  registered w sessionID p → heap w !! p = Some s →
  let w1 := (deleteSession sessionID w).1 in
  let w2 := (handleWebSocket_serve sessionID p rand w1).1 in
  let client := new_client sessionID rand (length (conns w)) in
  (handleWebSocket_serve sessionID p rand w1).2 = WsJoined client p
  ∧ InMemoryStore.Sessions (store w2) !! sessionID = None
  ∧ InMemoryStore.Clients (store w2) !! generateID rand = Some client
  ∧ member w2 p (generateID rand) client
  ∧ conns w2 !! length (conns w)
    = Some {| closed := false;
              written := [session_joined sessionID (generateID rand)] |}
  ∧ (∀ k, k < length (conns w) → outbox w2 k = outbox w k)
  ∧ ¬ registry_consistent w2.
Proof.
  intros Hr Hs w1 w2 client.
  assert (w1 = deleted sessionID s w) as Hw1.
  { subst w1. by rewrite (deleteSession_registered _ _ _ _ Hr Hs). }
  assert (length (conns w1) = length (conns w)) as Hlen.
  { rewrite Hw1. cbn. apply close_all_length. }
  assert (w2 = spawn client p
                 (set_conns (register client p (Upgrade w1).1)
                    (sendMessage (Some (length (conns w)))
                       (session_joined sessionID (generateID rand))
                       (conns (register client p (Upgrade w1).1)))))
    as Hw2.
  { subst w2. unfold handleWebSocket_serve. cbn [Upgrade fst snd]. rewrite Hlen.
    fold client. rewrite broadcast_unregistered; [done|].
    cbn. rewrite Hw1. cbn. apply lookup_delete_eq. }
  assert ((handleWebSocket_serve sessionID p rand w1).2 = WsJoined client p) as Hres.
  { unfold handleWebSocket_serve. cbn [Upgrade fst snd]. by rewrite Hlen. }
  assert (InMemoryStore.Sessions (store w2) !! sessionID = None) as Hgone.
  { rewrite Hw2, Hw1. cbn. apply lookup_delete_eq. }
  assert (InMemoryStore.Clients (store w2) !! generateID rand = Some client) as Hindex.
  { rewrite Hw2. cbn. apply lookup_insert_eq. }
  split; [done|]. split; [done|]. split; [done|]. split; [|split; [|split]].
  - rewrite Hw2. unfold member. cbn. rewrite Hw1. cbn.
    rewrite list_lookup_alter_eq, Hs. cbn. eexists. split; [done|]. cbn.
    apply lookup_insert_eq.
  - rewrite Hw2. cbn. unfold WriteJSON. rewrite list_lookup_alter_eq.
    rewrite lookup_app_r by lia. by rewrite Hlen, Nat.sub_diag.
  - intros k Hk. rewrite Hw2. unfold outbox. cbn. unfold WriteJSON.
    rewrite list_lookup_alter_ne by lia. rewrite lookup_app_l by lia.
    rewrite Hw1. cbn.
    pose proof (close_all_written (member_conns (map_to_list (Session.Clients s)))
                  (conns w) k) as Hw.
    destruct (close_all _ _ !! k), (conns w !! k); cbn in Hw; congruence.
  - intros [_ Hentries]. destruct (Hentries _ _ Hindex) as (q & Hq & _).
    unfold registered in Hq. change (Client.SessionID client) with sessionID in Hq.
    congruence.
Qed.

Lemma join_overtaken_by_deleteSession_witness :
  InMemoryStore.Sessions (store overtaken) !! "id_ssssssss" = None
  ∧ InMemoryStore.Clients (store overtaken) !! "id_aaaaaaaa" = Some clientA.
Proof.
  destruct (join_overtaken_by_deleteSession only_session "id_ssssssss" 0 empty_demo rA)
    as (_ & Hgone & Hindex & _).
  - vm_compute. reflexivity.
  - vm_compute. reflexivity.
  - split; [exact Hgone|exact Hindex].
Defined.

(** X15. The frontend understands everything the server sends.  For a
    client that has joined a registered session, whatever handlers run
    afterwards, the messages written to its connection are
    [session_joined] with its id and then events of the other three
    kinds; handled in order by [ws.onmessage], they leave the client id
    of the join in [clientId] and add one line to the activity log for
    each later event, none being ignored. *)
Theorem frontend_follows_its_connection w ops sessionID rand st :
  is_Some (InMemoryStore.Sessions (store w) !! sessionID) →
  let w' := run ops (handleWebSocket sessionID true rand w).1 in
  ∃ rest,
    outbox w' (length (conns w)) = session_joined sessionID (generateID rand) :: rest
    ∧ Forall later_event rest
    ∧ receive (outbox w' (length (conns w))) st
      = {| clientId := Some (generateID rand);
           messages := messages st ++ (log_line <$> rest) |}.
Proof.
  intros [p Hr] w'.
  set (greeting := session_joined sessionID (generateID rand)).
  assert (∃ c, conns w' !! length (conns w) = Some c
               ∧ ∃ rest, written c = greeting :: rest ∧ Forall later_event rest)
    as (c & Hc & rest & Hw & Hrest).
  { subst w'. rewrite (handleWebSocket_joined _ _ _ _ Hr). cbn zeta. cbn [fst].
    set (w2 := set_conns _ _).
    assert (conns w2 !! length (conns w)
            = Some {| closed := false; written := [greeting] |}) as Hnew.
    { unfold w2. cbn. unfold WriteJSON. rewrite list_lookup_alter_eq.
      rewrite lookup_app_r by lia. by rewrite Nat.sub_diag. }
    set (w3 := spawn _ _ _).
    assert (conns_extend (conns w2) (conns (run ops w3))) as [Hold _].
    { eapply conns_extend_trans; [|apply conns_extend_run].
      unfold w3. cbn [spawn conns]. apply conns_extend_broadcast.
      unfold later_event. eauto. }
    destruct (Hold _ _ Hnew) as (c & Hc & _ & new & Hw & Hnew').
    exists c. split; [done|]. exists new. by split. }
  exists rest. unfold outbox. rewrite Hc. split; [done|]. split; [done|].
  rewrite Hw. unfold receive. cbn [foldl].
  fold (receive rest (onmessage greeting st)). rewrite receive_later by done.
  f_equal.
Qed.

Lemma frontend_follows_its_connection_witness :
  receive (outbox (run [OpWebSocket "id_ssssssss" true rB; OpMessage 1 "ping";
                        OpDisconnect 1]
                     (handleWebSocket "id_ssssssss" true rA only_session).1) 0)
          {| clientId := None; messages := [] |}
  = {| clientId := Some "id_aaaaaaaa";
       messages := ["Client id_bbbbbbbb joined"; "Received data from id_bbbbbbbb";
                    "Client id_bbbbbbbb left"] |}.
Proof.
  destruct (frontend_follows_its_connection only_session
              [OpWebSocket "id_ssssssss" true rB; OpMessage 1 "ping"; OpDisconnect 1]
              "id_ssssssss" rA {| clientId := None; messages := [] |})
    as (rest & Hout & _ & Hreceive).
  - eexists. vm_compute. reflexivity.
  - vm_compute.
    assert (length (conns only_session) = 0) as Hzero by (vm_compute; reflexivity).
    rewrite Hzero in *. clear Hzero.
    vm_compute in Hout. injection Hout as <-. vm_compute in Hreceive.
    exact Hreceive.
Defined.

(** X16. No handler renames a session: once a session object exists,
    its id, its name and its creation time stay what createSession made
    them, whatever handlers run; only its participant map changes. *)
Theorem session_fields_never_change ops w p s :
  heap w !! p = Some s →
  ∃ s', heap (run ops w) !! p = Some s' ∧ session_json s' = session_json s.
Proof.
  revert w s. induction ops as [|op ops IH]; intros w s Hs; [by exists s|].
  destruct (step_heap_json op w p s Hs) as (s1 & Hs1 & Hjson1).
  destruct (IH (step op w) s1 Hs1) as (s' & Hs' & Hjson).
  exists s'. split; [done|]. congruence.
Qed.

Lemma session_fields_never_change_witness :
  ∃ s', heap (run busy_run NewWorld) !! 0 = Some s'
        ∧ session_json s' = {| json_id := "id_ssssssss"; json_name := "Demo";
                               json_createdAt := 1700000000%Z |}.
Proof.
  destruct (session_fields_never_change (tail busy_run)
              (createSession (Some "Demo") rS 1700000000%Z NewWorld).1 0 empty_demo)
    as (s' & Hs' & Hjson).
  - vm_compute. reflexivity.
  - exists s'. split; [exact Hs'|exact Hjson].
Defined.
